(** * dipy/align/bundlemin.pyx: MDF distance, distance matrix and
      bundle-minimum-distance reduction

    A shallow embedding of [min_direct_flip_dist],
    [_bundle_minimum_distance_matrix], [_bundle_minimum_distance] and
    [distance_matrix_mdf].

    - A C [double] is an IEEE-754 binary64 value: [spec_float] with the
      operations of [SpecFloat] at precision 53 and maximal exponent 1024
      (round to nearest, ties to even; one NaN, no payload).
    - A [double *] is the list of cells found from the pointer on; reading
      cell [k] is a list lookup.  The module is compiled with
      [boundscheck=False]: a read past the end is undefined in C, and is
      given the value NaN here.
    - The buffers of float64 arrays live in a heap, a finite map from
      locations to cell lists, each holding the elements of its array in
      row-major order;
      [malloc] and [np.zeros] extend it at a fresh location, an indexed
      store rewrites one cell of one buffer, [free] deletes the buffer.
    - [distance_matrix_mdf] also keeps a log of the arrays it creates
      (the two arrays of object references among them, which own no
      float64 buffer and so no location of the heap), the copies it makes
      and the distances it computes.
    - [for i in range(n)] and [prange(n)] (run by one worker) are folds over
      [0, 1, ..., n-1]. *)

From Stdlib Require Import ZArith List Lia Bool.
From Stdlib Require Import Floats.SpecFloat.
From stdpp Require Import gmap list.
Import ListNotations.

Open Scope Z_scope.

(** ** Binary64 arithmetic *)

Module F64.

Definition prec : Z := 53.
Definition emax : Z := 1024.

Definition double := spec_float.

Definition add : double -> double -> double := SFadd prec emax.
Definition sub : double -> double -> double := SFsub prec emax.
Definition mul : double -> double -> double := SFmul prec emax.
Definition div : double -> double -> double := SFdiv prec emax.
Definition sqrt : double -> double := SFsqrt prec emax.
Definition leb : double -> double -> bool := SFleb.
Definition ltb : double -> double -> bool := SFltb.

(** [<double> n] for a machine integer [n]. *)
Definition of_int (n : Z) : double := binary_normalize prec emax n 0 false.

Definition zero : double := S754_zero false.
Definition nan : double := S754_nan.
Definition pinf : double := S754_infinity false.

(** The literal [0.25], that is 2^52 * 2^-54. *)
Definition quarter : double := S754_finite false 4503599627370496 (-54).

(** [np.finfo('f8').max], that is (2^53 - 1) * 2^971. *)
Definition finfo_max : double := SFmax_float prec emax.

Definition is_nan (x : double) : bool :=
  match x with S754_nan => true | _ => false end.

(** Neither NaN nor an infinity. *)
Definition is_finite (x : double) : bool :=
  match x with
  | S754_zero _ | S754_finite _ _ _ => true
  | _ => false
  end.

(** The sign carried by a value that is not NaN. *)
Definition has_sign (s : bool) (x : double) : bool :=
  match x with
  | S754_zero s' | S754_infinity s' | S754_finite s' _ _ => Bool.eqb s' s
  | S754_nan => false
  end.

(** Not NaN, and the sign bit is clear: [+0], a positive number or
    [+infinity]. *)
Definition is_pos (x : double) : bool :=
  has_sign false x.

(** Not negative: NaN, or a value whose sign bit is clear. *)
Definition not_neg (x : double) : bool := is_nan x || is_pos x.

End F64.

Import F64.

Declare Scope double_scope.
Delimit Scope double_scope with D.
Infix "+" := add : double_scope.
Infix "-" := sub : double_scope.
Infix "*" := mul : double_scope.
Infix "/" := div : double_scope.
Infix "<=?" := leb : double_scope.
Infix "<?" := ltb : double_scope.

(** ** Pointers and loops *)

(** A [double *]: the cells from the pointer on. *)
Abbreviation ptr := (list double).

(** [p[k]]. *)
Definition deref (p : ptr) (k : nat) : double := default nan (p !! k).

(** [for i in range(n): s = body i s]. *)
Definition for_range {S : Type} (n : nat) (body : nat -> S -> S) (s : S) : S :=
  fold_left (fun s i => body i s) (seq 0 n) s.

(** ** [min_direct_flip_dist] *)

(** The body of [for j in range(3)], lines 63-66; the state is
    [(tmprow, tmprowf)]. *)
Definition coord_body (a b : ptr) (rows i j : nat)
    (acc : double * double) : double * double :=
  let '(tmprow, tmprowf) := acc in
  let sub := (deref a (i * 3 + j) - deref b (i * 3 + j))%D in
  let subf := (deref a (i * 3 + j) - deref b ((rows - 1 - i) * 3 + j))%D in
  ((tmprow + sub * sub)%D, (tmprowf + subf * subf)%D).

(** The body of [for i in range(rows)], lines 60-68; the state is
    [(dist, distf)]. *)
Definition point_body (a b : ptr) (rows i : nat)
    (acc : double * double) : double * double :=
  let '(dist, distf) := acc in
  let '(tmprow, tmprowf) := for_range 3 (coord_body a b rows i) (zero, zero) in
  ((dist + sqrt tmprow)%D, (distf + sqrt tmprowf)%D).

(** [rows] is a signed [npy_intp]: [range(rows)] is empty when it is not
    positive, and [<double>rows] converts the integer itself. *)
Definition min_direct_flip_dist (a b : ptr) (rows : Z) : double :=
  let '(dist, distf) :=
    for_range (Z.to_nat rows) (point_body a b (Z.to_nat rows)) (zero, zero) in
  let dist := (dist / of_int rows)%D in
  let distf := (distf / of_int rows)%D in
  if (dist <=? distf)%D then dist else distf.

(** ** The heap of array buffers *)

Abbreviation loc := nat.
Abbreviation heap := (gmap nat (list double)).

(** What the code sees of a NumPy array or a typed memoryview
    [double[:, ::1]]: the buffer, the shape, and whether the array already
    is C-contiguous float64. *)
Record ndarray := {
  nd_data : loc;
  nd_shape0 : nat;
  nd_shape1 : nat;
  nd_contig : bool
}.

Definition buffer (h : heap) (l : loc) : list double := default [] (h !! l).

(** [&A[r, 0]]: the address of row [r] of a C-contiguous array. *)
Definition row_ptr (h : heap) (A : ndarray) (r : nat) : ptr :=
  drop (r * nd_shape1 A) (buffer h (nd_data A)).

(** [A.data]. *)
Definition data_ptr (h : heap) (A : ndarray) : ptr := buffer h (nd_data A).

(** [p[i] = v] on a raw buffer.  A store past the end of the buffer, or
    through a location that holds no buffer, is undefined in C; here it
    changes nothing. *)
Definition store (h : heap) (l : loc) (i : nat) (v : double) : heap :=
  alter (fun cells => <[i := v]> cells) l h.

(** [p[i]]; NaN past the end, as for [deref]. *)
Definition load (h : heap) (l : loc) (i : nat) : double := deref (buffer h l) i.

(** [A[i, j] = v] and [A[i, j]]. *)
Definition store2 (h : heap) (A : ndarray) (i j : nat) (v : double) : heap :=
  store h (nd_data A) (i * nd_shape1 A + j) v.

Definition load2 (h : heap) (A : ndarray) (i j : nat) : double :=
  load h (nd_data A) (i * nd_shape1 A + j).

(** A new buffer with the given cells, at a location not in use. *)
Definition alloc (h : heap) (cells : list double) : heap * loc :=
  let l := fresh (dom h) in (<[l := cells]> h, l).

(** [malloc(n * sizeof(double))]: the cells are not initialised, they hold
    whatever [garbage] was there.  A failing [malloc] is not modelled (the
    source does not test for it either). *)
Definition malloc (garbage : nat -> double) (h : heap) (n : nat) : heap * loc :=
  alloc h (map garbage (seq 0 n)).

Definition free (h : heap) (l : loc) : heap := delete l h.

(** ** [_bundle_minimum_distance_matrix] *)

(** [prange] is run here by a single worker, in index order.  The three
    sizes are signed [npy_intp]; a loop over a size that is not positive is
    empty.  The function returns [np.asarray(D)], the matrix it was given:
    the result is the heap, where the buffer of [D] has been written. *)
Definition _bundle_minimum_distance_matrix (h : heap)
    (static moving : ndarray) (static_size moving_size rows : Z)
    (D : ndarray) : heap :=
  for_range (Z.to_nat static_size) (fun i h =>
    for_range (Z.to_nat moving_size) (fun j h =>
      store2 h D i j
        (min_direct_flip_dist (row_ptr h static (i * Z.to_nat rows))
                              (row_ptr h moving (j * Z.to_nat rows))
                              rows)) h) h.

(** ** [_bundle_minimum_distance] *)

(** [double inf = np.finfo('f8').max], line 170. *)
Definition inf : double := finfo_max.

(** Lines 182-189: the two scratch arrays and their initialisation. *)
Definition bmd_init (garbage : nat -> double) (h : heap)
    (static_size moving_size : Z) : heap * loc * loc :=
  let '(h, min_j) := malloc garbage h (Z.to_nat static_size) in
  let '(h, min_i) := malloc garbage h (Z.to_nat moving_size) in
  let h := for_range (Z.to_nat static_size) (fun i h => store h min_j i inf) h in
  let h := for_range (Z.to_nat moving_size) (fun j h => store h min_i j inf) h in
  (h, min_j, min_i).

(** Lines 195-204: one pairwise distance folded into both arrays.  The lock
    around the two updates has no effect with a single worker. *)
Definition bmd_update (stat mov : ndarray) (rows : Z) (min_j min_i : loc)
    (i j : nat) (h : heap) : heap :=
  let tmp := min_direct_flip_dist (row_ptr h stat (i * Z.to_nat rows))
                                  (row_ptr h mov (j * Z.to_nat rows)) rows in
  let h := if (tmp <? load h min_j i)%D then store h min_j i tmp else h in
  let h := if (tmp <? load h min_i j)%D then store h min_i j tmp else h in
  h.

(** Lines 191-206. *)
Definition bmd_scan (stat mov : ndarray) (static_size moving_size rows : Z)
    (min_j min_i : loc) (h : heap) : heap :=
  for_range (Z.to_nat static_size) (fun i h =>
    for_range (Z.to_nat moving_size) (fun j h =>
      bmd_update stat mov rows min_j min_i i j h) h) h.

(** Lines 211-222: the two sums, the release of the scratch arrays and the
    final scalar [0.25 * dist * dist]. *)
Definition bmd_finish (static_size moving_size : Z) (min_j min_i : loc)
    (h : heap) : heap * double :=
  let sum_i := for_range (Z.to_nat static_size)
                 (fun i sum_i => (sum_i + load h min_j i)%D) zero in
  let sum_j := for_range (Z.to_nat moving_size)
                 (fun j sum_j => (sum_j + load h min_i j)%D) zero in
  let h := free h min_j in
  let h := free h min_i in
  let dist := (sum_i / of_int static_size + sum_j / of_int moving_size)%D in
  (h, (quarter * dist * dist)%D).

Definition _bundle_minimum_distance (garbage : nat -> double) (h : heap)
    (stat mov : ndarray) (static_size moving_size rows : Z) : heap * double :=
  let '(h, min_j, min_i) := bmd_init garbage h static_size moving_size in
  let h := bmd_scan stat mov static_size moving_size rows min_j min_i h in
  bmd_finish static_size moving_size min_j min_i h.

(** ** [distance_matrix_mdf] *)

(** How a call ends when it returns no matrix.  [ValueError] is the
    exception of line 262.  [Undefined] is a read of element 0 of an empty
    collection: the module is compiled with [boundscheck=False], so on a
    built-in list or tuple [streamlines_a[0]] is an unchecked read past
    the end of the items (undefined in C, a crash of the process in
    practice) and no [IndexError] is raised.  The world given with
    [Undefined] is the one reached when the read is made.  Sequences of
    other types, whose own indexing raises, are not modelled. *)
Inductive failure := ValueError | Undefined.

(** What the function does besides reading: the arrays it creates, the
    copies it makes, and the distances it computes. *)
Inductive event :=
  | Alloc_objects (n : nat)      (* np.zeros((n,), dtype=object) *)
  | Alloc_matrix (s m : nat)     (* np.zeros((s, m), dtype=np.double) *)
  | Copy_array (src : loc)       (* a copy made by np.ascontiguousarray *)
  | Distance_call (i j : nat).   (* a call of min_direct_flip_dist *)

Record world := { w_heap : heap; w_log : list event }.

Definition emit (e : event) (w : world) : world :=
  {| w_heap := w_heap w; w_log := w_log w ++ [e] |}.

(** [np.zeros((s, m), dtype=np.double)]. *)
Definition np_zeros (w : world) (s m : nat) : world * ndarray :=
  let '(h, l) := alloc (w_heap w) (replicate (s * m) zero) in
  ({| w_heap := h; w_log := w_log w ++ [Alloc_matrix s m] |},
   {| nd_data := l; nd_shape0 := s; nd_shape1 := m; nd_contig := true |}).

(** [np.ascontiguousarray(a, dtype=f64_dt)]: the array itself when it
    already has that layout, a fresh copy otherwise. *)
Definition np_ascontiguousarray (w : world) (a : ndarray) : world * ndarray :=
  if nd_contig a then (w, a)
  else
    let '(h, l) := alloc (w_heap w) (buffer (w_heap w) (nd_data a)) in
    ({| w_heap := h; w_log := w_log w ++ [Copy_array (nd_data a)] |},
     {| nd_data := l; nd_shape0 := nd_shape0 a; nd_shape1 := nd_shape1 a;
        nd_contig := true |}).

(** Lines 266-269: [tracks64[i] = np.ascontiguousarray(streamlines[i])] for
    every [i]; the object array ends up holding the results in order. *)
Definition normalize_step (st : world * list ndarray) (a : ndarray)
    : world * list ndarray :=
  let '(w, tracks64) := st in
  let '(w, a64) := np_ascontiguousarray w a in
  (w, tracks64 ++ [a64]).

Definition normalize (w : world) (streamlines : list ndarray)
    : world * list ndarray :=
  fold_left normalize_step streamlines (w, []).

(** Lines 280-287. *)
Definition fill_matrix (tracksA64 tracksB64 : list ndarray) (t_len : Z)
    (DM : ndarray) (w : world) : world :=
  for_range (length tracksA64) (fun i w =>
    match tracksA64 !! i with
    | None => w
    | Some t1 =>
      for_range (length tracksB64) (fun j w =>
        match tracksB64 !! j with
        | None => w
        | Some t2 =>
          let d := min_direct_flip_dist (data_ptr (w_heap w) t1)
                                        (data_ptr (w_heap w) t2) t_len in
          {| w_heap := store2 (w_heap w) DM i j d;
             w_log := w_log w ++ [Distance_call i j] |}
        end) w
    end) w.

(** Lines 256-289.  The collections are built-in lists.  The two object
    arrays of lines 258-259 hold references to arrays, not cells: they are
    recorded in the log and, having no float64 buffer, take no location of
    the heap. *)
Definition distance_matrix_mdf (w : world)
    (streamlines_a streamlines_b : list ndarray) : world * (failure + ndarray) :=
  let lentA := length streamlines_a in
  let lentB := length streamlines_b in
  let w := emit (Alloc_objects lentA) w in
  let w := emit (Alloc_objects lentB) w in
  let '(w, DM) := np_zeros w lentA lentB in
  match streamlines_a !! 0%nat with
  | None => (w, inl Undefined)
  | Some a0 =>
    match streamlines_b !! 0%nat with
    | None => (w, inl Undefined)
    | Some b0 =>
      if negb (nd_shape0 a0 =? nd_shape0 b0)%nat then (w, inl ValueError)
      else
        let '(w, tracksA64) := normalize w streamlines_a in
        let '(w, tracksB64) := normalize w streamlines_b in
        match tracksA64 !! 0%nat with
        | None => (w, inl Undefined)
        | Some t0 =>
          let t_len := Z.of_nat (nd_shape0 t0) in
          (fill_matrix tracksA64 tracksB64 t_len DM w, inr DM)
        end
    end
  end.

(** ** Streamlines as sequences of points *)

Definition point := (double * double * double)%type.
Abbreviation streamline := (list point).

Definition origin : point := (zero, zero, zero).

(** The row-major layout: [x0 y0 z0 x1 y1 z1 ...]. *)
Definition flat_point (p : point) : list double :=
  let '(x, y, z) := p in [x; y; z].

Definition flat (s : streamline) : list double := concat (map flat_point s).

(** Every coordinate is a number: neither NaN nor an infinity. *)
Definition finite_point (p : point) : bool :=
  let '(x, y, z) := p in is_finite x && is_finite y && is_finite z.

Definition finite_streamline (s : streamline) : bool := forallb finite_point s.

(** The array [A] is a stack of the streamlines of [set], each of [rows]
    points of three coordinates. *)
Definition holds_set (h : heap) (A : ndarray) (set : list streamline)
    (rows : nat) : Prop :=
  h !! nd_data A = Some (concat (map flat set)) /\
  nd_shape1 A = 3%nat /\
  Forall (fun s => length s = rows) set.

(** The array [A] is the streamline [s]. *)
Definition holds_streamline (h : heap) (A : ndarray) (s : streamline) : Prop :=
  h !! nd_data A = Some (flat s) /\ nd_shape0 A = length s.

(** ** The MDF distance as the specification words it *)

(** The Euclidean distance between two 3D points. *)
Definition euclid (p q : point) : double :=
  let '(px, py, pz) := p in
  let '(qx, qy, qz) := q in
  sqrt ((px - qx) * (px - qx) + (py - qy) * (py - qy) + (pz - qz) * (pz - qz))%D.

(** Sum and mean of a sequence, accumulated from the left. *)
Definition dsum (l : list double) : double := fold_left add l zero.

Definition dmean (l : list double) : double :=
  (dsum l / of_int (Z.of_nat (length l)))%D.

(** direct: point [i] of [a] against point [i] of [b]. *)
Definition direct_mean (a b : streamline) : double :=
  dmean (zip_with euclid a b).

(** flipped: point [i] of [a] against point [rows-1-i] of [b]. *)
Definition flipped_mean (a b : streamline) : double :=
  dmean (zip_with euclid a (reverse b)).

(** The smaller of the two means, the direct one on a tie. *)
Definition pair_distance_spec (a b : streamline) : double :=
  if (direct_mean a b <=? flipped_mean a b)%D
  then direct_mean a b else flipped_mean a b.

(** ** The bundle distance computed from a full matrix *)

(** The smaller of two values; [acc] is kept unless [t] is strictly below. *)
Definition dmin2 (acc t : double) : double := if (t <? acc)%D then t else acc.



(** ** The matrix loops on the cells alone *)

(** The matrix loops of both distance-matrix functions, on the cells of the
    matrix alone: [T i j] is what goes to cell [(i, j)]. *)
Definition fill_row (M : nat) (T : nat -> nat -> double) (i : nat)
    (cells : list double) : list double :=
  for_range M (fun j (c : list double) => <[(i * M + j)%nat := T i j]> c) cells.

Definition fill (S M : nat) (T : nat -> nat -> double)
    (cells : list double) : list double :=
  for_range S (fill_row M T) cells.


(** What [fill_matrix] puts in cell [(i, j)]. *)
Definition cell_value (h : heap) (tracksA64 tracksB64 : list ndarray)
    (t_len : Z) (i j : nat) : double :=
  match tracksA64 !! i, tracksB64 !! j with
  | Some t1, Some t2 =>
    min_direct_flip_dist (data_ptr h t1) (data_ptr h t2) t_len
  | _, _ => nan
  end.


(** ** The reduction loops on the cells alone *)

(** One distance [T i j] folded into the two arrays of minima. *)
Definition fold_min (T : nat -> nat -> double) (i j : nat)
    (st : list double * list double) : list double * list double :=
  let '(mj, mi) := st in
  let tmp := T i j in
  (if (tmp <? deref mj i)%D then <[i := tmp]> mj else mj,
   if (tmp <? deref mi j)%D then <[j := tmp]> mi else mi).

Definition scan_min (S M : nat) (T : nat -> nat -> double)
    (st : list double * list double) : list double * list double :=
  for_range S (fun i st => for_range M (fun j st => fold_min T i j st) st) st.

(** The minimum of row [i], and of column [j], accumulated from [inf]. *)
Definition row_min (M : nat) (T : nat -> nat -> double) (i : nat) : double :=
  fold_left dmin2 (map (fun j => T i j) (seq 0 M)) inf.

Definition col_min (S : nat) (T : nat -> nat -> double) (j : nat) : double :=
  fold_left dmin2 (map (fun i => T i j) (seq 0 S)) inf.

(** ** The scratch arrays of the reduction *)

(** The two locations [malloc] hands out in [bmd_init]. *)
Definition scratch_j (h : heap) : loc := fresh (dom h).
Definition scratch_i (h : heap) : loc := fresh (({[scratch_j h]} : gset nat) ∪ dom h).


(** What the scan keeps true whatever the input arrays are: buffers other
    than the two scratch arrays are not written, and the scratch arrays
    keep their lengths and hold values that are neither NaN nor negative. *)
Definition scratch_ok (h0 : heap) (lj li : loc) (S M : nat) (h : heap) : Prop :=
  (forall l, l <> lj -> l <> li -> h !! l = h0 !! l) /\
  exists mj mi,
    h !! lj = Some mj /\ h !! li = Some mi /\
    length mj = S /\ length mi = M /\
    Forall (fun x => is_pos x = true) mj /\ Forall (fun x => is_pos x = true) mi.


(** ** Sample data *)

Definition pt (x y z : Z) : point := (of_int x, of_int y, of_int z).

(** Three points along the x axis, the same line one unit up, and two
    points. *)
Definition line3 : streamline := [pt 0 0 0; pt 1 0 0; pt 2 0 0].
Definition line3_up : streamline := [pt 0 1 0; pt 1 1 0; pt 2 1 0].
Definition line2 : streamline := [pt 0 0 0; pt 1 0 0].

(** [k / 10] as a double, the points [0.1], [0.2], [0.3] on the x axis, and
    three points at the origin. *)
Definition tenth (k : Z) : double := (of_int k / of_int 10)%D.
Definition tenths : streamline :=
  [(tenth 1, zero, zero); (tenth 2, zero, zero); (tenth 3, zero, zero)].
Definition origin3 : streamline := [origin; origin; origin].

Definition array2 (l : loc) (n0 n1 : nat) : ndarray :=
  {| nd_data := l; nd_shape0 := n0; nd_shape1 := n1; nd_contig := true |}.

(** A static set of two streamlines at location 0, a moving set of one at
    location 1, and a 2-by-1 matrix at location 2. *)
Definition sample_heap : heap :=
  <[0%nat := concat (map flat [line3; line3_up])]>
    (<[1%nat := concat (map flat [line3])]>
       (<[2%nat := [nan; nan]]> ∅)).



(** A streamline of 10 points at location 0 and one of 12 at location 1. *)
Definition mismatch_world : world :=
  {| w_heap := <[0%nat := replicate 30 zero]> (<[1%nat := replicate 36 zero]> ∅);
     w_log := [] |}.

(** Two streamlines of three points at locations 0 and 1, the second one
    held in a layout that has to be copied. *)
Definition sample_world : world :=
  {| w_heap := <[0%nat := flat line3]> (<[1%nat := flat line3_up]> ∅);
     w_log := [] |}.

Definition strided (l : loc) (n0 n1 : nat) : ndarray :=
  {| nd_data := l; nd_shape0 := n0; nd_shape1 := n1; nd_contig := false |}.

(** ** The order of the doubles, as an order on integers *)

(** A double that is not NaN, placed on a scale that [<=] follows: the
    negative infinity, the negative numbers by decreasing magnitude, the
    zeros, the positive numbers, the positive infinity. *)
Definition rank (x : double) : Z * Z * Z :=
  match x with
  | S754_infinity true => (-2, 0, 0)
  | S754_finite true m e => (-1, - e, - Zpos m)
  | S754_zero _ | S754_nan => (0, 0, 0)
  | S754_finite false m e => (1, e, Zpos m)
  | S754_infinity false => (2, 0, 0)
  end.

Definition lex_le (u v : Z * Z * Z) : Prop :=
  let '(a1, b1, c1) := u in
  let '(a2, b2, c2) := v in
  a1 < a2 \/ (a1 = a2 /\ (b1 < b2 \/ (b1 = b2 /\ c1 <= c2))).

(** ** The log of a successful [distance_matrix_mdf] *)

(** The copies [normalize] makes: one for each array that is not already
    C-contiguous float64. *)
Definition copies (streamlines : list ndarray) : list event :=
  map (fun a => Copy_array (nd_data a))
      (List.filter (fun a => negb (nd_contig a)) streamlines).

(** Every pair [(i, j)] once, row by row. *)
Definition calls (S M : nat) : list event :=
  flat_map (fun i => map (fun j => Distance_call i j) (seq 0 M)) (seq 0 S).

(** ** Magnitudes *)





(** ** Facts about binary64 rounding *)

Section Rounding.

Local Abbreviation bra := (binary_round_aux prec emax).

Lemma shr_1_nonneg mrs : 0 <= shr_m mrs -> 0 <= shr_m (shr_1 mrs).
Proof.
  destruct mrs as [m r s]; simpl.
  destruct m as [|[p|p|]|[p|p|]]; simpl; lia.
Qed.

Lemma iter_shr_1_nonneg p : forall mrs,
  0 <= shr_m mrs -> 0 <= shr_m (SpecFloat.iter_pos shr_1 p mrs).
Proof.
  induction p as [p IH|p IH|]; intros mrs H; simpl.
  - apply IH, IH, shr_1_nonneg, H.
  - apply IH, IH, H.
  - apply shr_1_nonneg, H.
Qed.

Lemma shr_fexp_nonneg m e l :
  0 <= m -> 0 <= shr_m (fst (shr_fexp prec emax m e l)).
Proof.
  intros Hm. unfold shr_fexp, shr.
  assert (H0 : 0 <= shr_m (shr_record_of_loc m l))
    by (destruct l as [|[]]; simpl; exact Hm).
  destruct (fexp prec emax (Zdigits2 m + e) - e); simpl; auto.
  apply iter_shr_1_nonneg, H0.
Qed.

Lemma round_nearest_even_nonneg m l : 0 <= m -> 0 <= round_nearest_even m l.
Proof.
  intros Hm. destruct l as [|[]]; simpl; try lia.
  destruct (Z.even m); lia.
Qed.

(** Rounding a non-negative mantissa never yields NaN and keeps the sign
    it was given. *)
Lemma bra_sign s m e l : 0 <= m -> has_sign s (bra s m e l) = true.
Proof.
  intros Hm. unfold binary_round_aux.
  pose proof (shr_fexp_nonneg m e l Hm) as H1.
  destruct (shr_fexp prec emax m e l) as [mrs' e'] eqn:E1. simpl in H1.
  pose proof (shr_fexp_nonneg _ e' loc_Exact
                (round_nearest_even_nonneg _ (loc_of_shr_record mrs') H1)) as H2.
  destruct (shr_fexp prec emax _ e' loc_Exact) as [mrs'' e''] eqn:E2.
  simpl in H2.
  destruct (shr_m mrs'') as [|q|q]; simpl.
  - apply eqb_reflx.
  - destruct (e'' <=? emax - prec); simpl; apply eqb_reflx.
  - lia.
Qed.

Lemma binary_round_sign s m e :
  has_sign s (binary_round prec emax s m e) = true.
Proof.
  unfold binary_round.
  destruct (shl_align m e _) as [mz ez]. apply bra_sign. lia.
Qed.

(** Apart from the sign it is given, rounding does not depend on it. *)
Lemma bra_abs s m e l : SFabs (bra s m e l) = SFabs (bra false m e l).
Proof.
  unfold binary_round_aux.
  destruct (shr_fexp prec emax m e l) as [mrs' e'].
  destruct (shr_fexp prec emax _ e' loc_Exact) as [mrs'' e''].
  destruct (shr_m mrs''); try reflexivity.
  destruct (e'' <=? emax - prec); reflexivity.
Qed.

Lemma binary_round_abs s m e :
  SFabs (binary_round prec emax s m e) = SFabs (binary_round prec emax false m e).
Proof.
  unfold binary_round. destruct (shl_align m e _) as [mz ez]. apply bra_abs.
Qed.

End Rounding.

(** ** Sign and NaN behaviour of the operations *)

Lemma is_pos_not_nan x : is_pos x = true -> is_nan x = false.
Proof. destruct x; simpl; congruence. Qed.

Lemma binary_normalize_pos p e :
  is_pos (binary_normalize prec emax (Zpos p) e false) = true.
Proof. apply (binary_round_sign false). Qed.

Lemma add_comm x y : (x + y)%D = (y + x)%D.
Proof.
  destruct x as [[]|[]| |sx mx ex], y as [[]|[]| |sy my ey]; try reflexivity.
  unfold add, SFadd. rewrite (Z.min_comm ey ex). f_equal. apply Z.add_comm.
Qed.

Lemma add_pos x y : is_pos x = true -> is_pos y = true -> is_pos (x + y)%D = true.
Proof.
  destruct x as [[]|[]| |[] mx ex], y as [[]|[]| |[] my ey];
    simpl; try congruence; intros _ _.
  apply binary_normalize_pos.
Qed.

(** [+0 + y] is [y], unless [y] is [-0]. *)
Lemma add_zero_l y : y <> S754_zero true -> (zero + y)%D = y.
Proof. destruct y as [[]|[]| |sy my ey]; intros H; try reflexivity; congruence. Qed.

Lemma mul_self_sign x : is_nan x = false -> is_pos (x * x)%D = true.
Proof.
  destruct x as [[]|[]| |s m e]; simpl; try congruence; intros _.
  unfold mul, SFmul. unfold is_pos.
  replace (xorb s s) with false by (destruct s; reflexivity).
  apply bra_sign. lia.
Qed.

Lemma mul_self_nan x : is_nan x = true -> (x * x)%D = nan.
Proof. destruct x; try reflexivity; simpl; congruence. Qed.

Lemma mul_self_abs x : (x * x)%D = (SFabs x * SFabs x)%D.
Proof.
  destruct x as [[]|[]| |s m e]; try reflexivity.
  unfold mul, SFmul, SFabs. destruct s; reflexivity.
Qed.

Lemma sqrt_pos x : is_pos x = true -> is_pos (sqrt x) = true.
Proof.
  destruct x as [[]|[]| |[] m e]; simpl; try congruence; intros _.
  unfold sqrt, SFsqrt, SFsqrt_core_binary.
  set (m' := match _ - _ with Z0 => _ | Zpos _ => _ | Zneg _ => _ end).
  pose proof (Z.sqrtrem_sqrt m') as Hs.
  destruct (Z.sqrtrem m') as [q r]. simpl in Hs. subst q.
  apply bra_sign, Z.sqrt_nonneg.
Qed.

Lemma div_core_nonneg m1 e1 m2 e2 :
  0 <= fst (fst (SFdiv_core_binary prec emax (Zpos m1) e1 (Zpos m2) e2)).
Proof.
  unfold SFdiv_core_binary.
  set (s := e1 - e2 - _).
  set (m' := match s with Z0 => _ | Zpos _ => _ | Zneg _ => _ end).
  assert (Hm : 0 <= m').
  { subst m'. destruct s; try lia. apply Z.shiftl_nonneg. lia. }
  pose proof (Z_div_mod m' (Zpos m2) eq_refl) as Hd.
  destruct (Z.div_eucl m' (Zpos m2)) as [q r]. simpl.
  destruct Hd as [Hd Hr]. nia.
Qed.

(** A quotient of two signed values carries the product of the signs,
    unless it is NaN. *)
Lemma div_sign sx sy x y :
  has_sign sx x = true -> has_sign sy y = true ->
  is_nan (x / y)%D = true \/ has_sign (xorb sx sy) (x / y)%D = true.
Proof.
  intros Hx Hy.
  destruct x as [s1|s1| |s1 m1 e1], y as [s2|s2| |s2 m2 e2];
    simpl in Hx, Hy; try congruence;
    apply eqb_prop in Hx; apply eqb_prop in Hy; subst s1 s2;
    try (left; reflexivity); try (right; simpl; apply eqb_reflx).
  right. unfold div, SFdiv.
  pose proof (div_core_nonneg m1 e1 m2 e2) as Hq.
  destruct (SFdiv_core_binary prec emax (Zpos m1) e1 (Zpos m2) e2) as [[q e'] l].
  apply bra_sign, Hq.
Qed.

(** Dividing by a finite non-zero number never yields NaN. *)
Lemma div_by_finite sx sy x m e :
  has_sign sx x = true ->
  has_sign (xorb sx sy) (x / S754_finite sy m e)%D = true.
Proof.
  intros Hx.
  destruct x as [s1|s1| |s1 m1 e1]; simpl in Hx; try congruence;
    apply eqb_prop in Hx; subst s1; try (simpl; apply eqb_reflx).
  unfold div, SFdiv.
  pose proof (div_core_nonneg m1 e1 m e) as Hq.
  destruct (SFdiv_core_binary prec emax (Zpos m1) e1 (Zpos m) e) as [[q e'] l].
  apply bra_sign, Hq.
Qed.

Lemma sub_self x : is_finite x = true -> (x - x)%D = zero.
Proof.
  destruct x as [[]|[]| |s m e]; intros H; try discriminate H; try reflexivity.
  unfold sub, SFsub. rewrite Z.sub_diag. reflexivity.
Qed.

Lemma sub_finite_not_nan x y :
  is_finite x = true -> is_finite y = true -> is_nan (x - y)%D = false.
Proof.
  destruct x as [s1|s1| |s1 m1 e1], y as [s2|s2| |s2 m2 e2];
    intros Hx Hy; try discriminate Hx; try discriminate Hy; try reflexivity.
  - destruct s1, s2; reflexivity.
  - unfold sub, SFsub.
    destruct (_ - _) as [|p|p]; simpl; try reflexivity.
    + apply is_pos_not_nan, (binary_round_sign false).
    + pose proof (binary_round_sign true p (Z.min e1 e2)) as H.
      destruct (binary_round prec emax true p (Z.min e1 e2)); simpl in *; congruence.
Qed.

(** [b - a] is [a - b] with the sign changed, signs of zeros apart. *)
Lemma sub_swap_abs x y : SFabs (x - y)%D = SFabs (y - x)%D.
Proof.
  destruct x as [[]|[]| |sx mx ex], y as [[]|[]| |sy my ey]; try reflexivity.
  unfold sub, SFsub. rewrite (Z.min_comm ey ex).
  set (u := cond_Zopp sx _). set (v := cond_Zopp sy _).
  replace (v - u) with (- (u - v)) by lia.
  destruct (u - v) as [|p|p]; simpl; try reflexivity.
  - symmetry. apply binary_round_abs.
  - apply binary_round_abs.
Qed.

Lemma sub_swap_sq x y : ((x - y) * (x - y))%D = ((y - x) * (y - x))%D.
Proof.
  rewrite mul_self_abs, (mul_self_abs (y - x)%D), sub_swap_abs. reflexivity.
Qed.

(** ** The order *)

Lemma SFcompare_swap x y : SFcompare y x = option_map CompOpp (SFcompare x y).
Proof.
  destruct x as [[]|[]| |[] mx ex], y as [[]|[]| |[] my ey]; try reflexivity;
    simpl; rewrite (Z.compare_antisym ex ey);
    destruct (ex ?= ey); simpl; try reflexivity;
    change (Pos.compare_cont Eq my mx) with (Pos.compare_cont (CompOpp Eq) my mx);
    rewrite <- (Pos.compare_cont_antisym mx my Eq);
    destruct (Pos.compare_cont Eq mx my); reflexivity.
Qed.

Lemma compare_not_nan x y :
  is_nan x = false -> is_nan y = false -> exists c, SFcompare x y = Some c.
Proof.
  destruct x as [[]|[]| |[] mx ex], y as [[]|[]| |[] my ey];
    simpl; intros Hx Hy; try discriminate; eauto.
Qed.

Lemma leb_refl x : is_nan x = false -> (x <=? x)%D = true.
Proof.
  unfold leb, SFleb.
  destruct x as [[]|[]| |[] m e]; simpl; intros H; try discriminate;
    try reflexivity;
    rewrite Z.compare_refl, Pos.compare_cont_refl; reflexivity.
Qed.

Lemma leb_total x y :
  is_nan x = false -> is_nan y = false ->
  (x <=? y)%D = false -> (y <=? x)%D = true.
Proof.
  intros Hx Hy. unfold leb, SFleb. rewrite (SFcompare_swap x y).
  destruct (compare_not_nan x y Hx Hy) as [c ->].
  destruct c; simpl; congruence.
Qed.

Lemma eqb_leb x y : SFeqb x y = true -> (x <=? y)%D = true.
Proof.
  unfold SFeqb, leb, SFleb. destruct (SFcompare x y) as [[]|]; congruence.
Qed.

(** ** Conversion of a machine integer *)

Lemma digits2_pos_bounds p :
  2 ^ (Zpos (digits2_pos p) - 1) <= Zpos p < 2 ^ Zpos (digits2_pos p).
Proof.
  induction p as [p IH|p IH|]; simpl digits2_pos.
  - rewrite Pos2Z.inj_succ.
    replace (Z.succ (Zpos (digits2_pos p)) - 1) with (Z.succ (Zpos (digits2_pos p) - 1)) by lia.
    rewrite !Z.pow_succ_r by lia. lia.
  - rewrite Pos2Z.inj_succ.
    replace (Z.succ (Zpos (digits2_pos p)) - 1) with (Z.succ (Zpos (digits2_pos p) - 1)) by lia.
    rewrite !Z.pow_succ_r by lia. lia.
  - simpl. lia.
Qed.

(** The number of digits is determined by the two powers of two around
    the number. *)
Lemma Zdigits2_unique m k :
  0 < k -> 2 ^ (k - 1) <= m < 2 ^ k -> Zdigits2 m = k.
Proof.
  intros Hk [Hlo Hhi].
  assert (Hm : 0 < m) by (pose proof (Z.pow_pos_nonneg 2 (k - 1)); lia).
  destruct m as [|p|p]; try lia. simpl.
  pose proof (digits2_pos_bounds p) as [Hl Hh].
  set (d := Zpos (digits2_pos p)) in *.
  assert (Hd : 0 < d) by (subst d; lia).
  destruct (Z.lt_trichotomy d k) as [Hlt|[Heq|Hgt]]; [|exact Heq|].
  - assert (2 ^ d <= 2 ^ (k - 1)) by (apply Z.pow_le_mono_r; lia). lia.
  - assert (2 ^ k <= 2 ^ (d - 1)) by (apply Z.pow_le_mono_r; lia). lia.
Qed.

Lemma shr_1_m mrs : 0 <= shr_m mrs -> shr_m (shr_1 mrs) = shr_m mrs / 2.
Proof.
  destruct mrs as [m r s]; simpl. intros Hm.
  destruct m as [|[p|p|]|p]; simpl; try lia; try reflexivity.
  - rewrite Pos2Z.inj_xI. apply (Z.div_unique _ _ _ 1); lia.
  - rewrite Pos2Z.inj_xO. apply (Z.div_unique _ _ _ 0); lia.
Qed.

Lemma iter_shr_1_m n : forall mrs,
  0 <= shr_m mrs ->
  shr_m (SpecFloat.iter_pos shr_1 n mrs) = shr_m mrs / 2 ^ Zpos n.
Proof.
  induction n as [n IH|n IH|]; intros mrs Hm; simpl SpecFloat.iter_pos.
  - rewrite IH by (apply iter_shr_1_nonneg, shr_1_nonneg, Hm).
    rewrite IH by (apply shr_1_nonneg, Hm).
    rewrite shr_1_m by exact Hm.
    rewrite !Z.div_div by (try apply Z.pow_pos_nonneg; lia).
    f_equal.
    replace (Zpos n~1) with (Z.succ (Zpos n + Zpos n)) by lia.
    rewrite Z.pow_succ_r, Z.pow_add_r by lia. lia.
  - rewrite IH by (apply iter_shr_1_nonneg, Hm).
    rewrite IH by exact Hm.
    rewrite !Z.div_div by (try apply Z.pow_pos_nonneg; lia).
    f_equal.
    replace (Zpos n~0) with (Zpos n + Zpos n) by lia.
    rewrite Z.pow_add_r by lia. lia.
  - rewrite shr_1_m by exact Hm. reflexivity.
Qed.

Lemma shr_record_of_loc_m m l : shr_m (shr_record_of_loc m l) = m.
Proof. destruct l as [|[]]; reflexivity. Qed.

(** Rounding a mantissa of at least [prec] digits whose value lies within
    the exponent range yields a finite non-zero number. *)
Lemma bra_finite s m e l :
  0 < m ->
  prec <= Zdigits2 m -> emin prec emax <= e -> Zdigits2 m + e < emax ->
  exists m' e', binary_round_aux prec emax s m e l = S754_finite s m' e'.
Proof.
  intros Hm Hk He Hke.
  set (k := Zdigits2 m) in *.
  assert (Hb : 2 ^ (k - 1) <= m < 2 ^ k).
  { subst k. destruct m as [|p|p]; try lia. apply digits2_pos_bounds. }
  unfold binary_round_aux.
  (* first shift: down to [prec] digits *)
  assert (H1 : exists mrs', shr_fexp prec emax m e l = (mrs', e + (k - prec))
               /\ 2 ^ (prec - 1) <= shr_m mrs' < 2 ^ prec).
  { unfold shr_fexp, shr, fexp. fold k.
    replace (Z.max (k + e - prec) (emin prec emax) - e) with (k - prec)
      by (unfold emin, prec, emax in *; lia).
    destruct (k - prec) as [|n|n] eqn:En; try (unfold prec in *; lia).
    - eexists; split; [f_equal; lia|].
      rewrite shr_record_of_loc_m. replace k with prec in Hb by lia. exact Hb.
    - eexists; split; [reflexivity|].
      rewrite iter_shr_1_m by (rewrite shr_record_of_loc_m; lia).
      rewrite shr_record_of_loc_m.
      assert (Hp : 0 < 2 ^ Zpos n) by (apply Z.pow_pos_nonneg; lia).
      replace k with (prec + Zpos n) in Hb by lia.
      replace (prec + Zpos n - 1) with (prec - 1 + Zpos n) in Hb
        by lia.
      rewrite !Z.pow_add_r in Hb by (unfold prec; lia).
      split.
      + apply Z.div_le_lower_bound; lia.
      + apply Z.div_lt_upper_bound; lia. }
  destruct H1 as (mrs' & -> & HM1).
  set (m1 := round_nearest_even (shr_m mrs') (loc_of_shr_record mrs')).
  assert (Hm1 : 2 ^ (prec - 1) <= m1 <= 2 ^ prec).
  { subst m1. destruct (loc_of_shr_record mrs') as [|[]]; simpl; try lia.
    destruct (Z.even (shr_m mrs')); lia. }
  set (e1 := e + (k - prec)) in *.
  assert (He1 : emin prec emax <= e1) by (unfold e1, prec in *; lia).
  destruct (Z.eq_dec m1 (2 ^ prec)) as [Heq|Hne].
  - (* the carry reached 2^prec: one more shift *)
    assert (Hd : Zdigits2 m1 = prec + 1).
    { apply Zdigits2_unique; [unfold prec; lia|].
      replace (prec + 1 - 1) with prec by lia. rewrite Heq.
      unfold prec. simpl. lia. }
    unfold shr_fexp, shr, fexp. rewrite Hd.
    replace (Z.max (prec + 1 + e1 - prec) (emin prec emax) - e1) with 1 by lia.
    simpl SpecFloat.iter_pos. rewrite Heq. simpl.
    assert (Hle : (e1 + 1 <=? emax - prec) = true)
      by (apply Z.leb_le; unfold e1, prec, emax in *; lia).
    unfold prec, emax in *. simpl in Hle. rewrite Hle. eauto.
  - assert (Hd : Zdigits2 m1 = prec).
    { apply Zdigits2_unique; [unfold prec; lia|lia]. }
    unfold shr_fexp, shr, fexp. rewrite Hd.
    replace (Z.max (prec + e1 - prec) (emin prec emax) - e1) with 0 by lia.
    simpl.
    assert (Hp : 0 < 2 ^ (prec - 1)) by (apply Z.pow_pos_nonneg; unfold prec; lia).
    destruct m1 as [|q|q]; try lia.
    assert (Hle : (e1 <=? emax - prec) = true)
      by (apply Z.leb_le; unfold e1, prec, emax in *; lia).
    unfold prec, emax in *. simpl in Hle. rewrite Hle. eauto.
Qed.

Lemma digits2_pos_iter_xO d : forall p,
  Zpos (digits2_pos (Pos.iter xO p d)) = Zpos (digits2_pos p) + Zpos d.
Proof.
  induction d as [|d IH] using Pos.peano_ind; intros p.
  - simpl. lia.
  - rewrite Pos.iter_succ. simpl digits2_pos. rewrite Pos2Z.inj_succ, IH. lia.
Qed.

(** An integer between 1 and 2^63 - 1, the positive range of [npy_intp],
    converts to a finite positive double. *)
Lemma of_int_finite n :
  1 <= n < 2 ^ 63 -> exists m e, of_int n = S754_finite false m e.
Proof.
  intros [Hlo Hhi]. destruct n as [|p|p]; try lia.
  unfold of_int, binary_normalize, binary_round.
  pose proof (digits2_pos_bounds p) as [Hl Hh].
  set (d := Zpos (digits2_pos p)) in *.
  assert (Hd : 1 <= d <= 63).
  { split; [subst d; lia|].
    destruct (Z_le_gt_dec d 63) as [H|H]; [exact H|].
    assert (2 ^ 63 <= 2 ^ (d - 1)) by (apply Z.pow_le_mono_r; lia). lia. }
  unfold shl_align, fexp.
  replace (Z.max (d + 0 - prec) (emin prec emax) - 0) with (d - prec)
    by (unfold emin, prec, emax; lia).
  destruct (d - prec) as [|q|q] eqn:Eq.
  - apply bra_finite; simpl; fold d; unfold emin, prec, emax in *; lia.
  - apply bra_finite; simpl; fold d; unfold emin, prec, emax in *; lia.
  - apply bra_finite; simpl; rewrite ?digits2_pos_iter_xO; fold d;
      unfold emin, prec, emax in *; lia.
Qed.

(** ** Loops *)

Lemma fold_left_ext_in {S A : Type} (f g : S -> A -> S) (l : list A) : forall s,
  (forall x s, In x l -> f s x = g s x) -> fold_left f l s = fold_left g l s.
Proof.
  induction l as [|x l IH]; intros s H; simpl; [reflexivity|].
  rewrite H by (left; reflexivity). apply IH.
  intros y s' Hy. apply H. right. exact Hy.
Qed.

Lemma for_range_ext {S : Type} (n : nat) (f g : nat -> S -> S) (s : S) :
  (forall i s, (i < n)%nat -> f i s = g i s) -> for_range n f s = for_range n g s.
Proof.
  intros H. unfold for_range. apply fold_left_ext_in.
  intros i s' Hi. apply H. apply in_seq in Hi. lia.
Qed.

Lemma for_range_S {S : Type} (n : nat) (f : nat -> S -> S) (s : S) :
  for_range (Datatypes.S n) f s = f n (for_range n f s).
Proof. unfold for_range. rewrite seq_S, fold_left_app. reflexivity. Qed.

Lemma for_range_3 {S : Type} (f : nat -> S -> S) (s : S) :
  for_range 3 f s = f 2%nat (f 1%nat (f 0%nat s)).
Proof. reflexivity. Qed.

(** A loop that adds one term to each of two accumulators computes the two
    sums separately. *)
Lemma fold_left_two_sums {A : Type} (f g : A -> double)
    (body : double * double -> A -> double * double) (l : list A) :
  (forall i d df, In i l -> body (d, df) i = ((d + f i)%D, (df + g i)%D)) ->
  forall d df,
    fold_left body l (d, df) =
    (fold_left add (map f l) d, fold_left add (map g l) df).
Proof.
  induction l as [|x l IH]; intros H d df; simpl; [reflexivity|].
  rewrite H by (left; reflexivity). apply IH.
  intros i d' df' Hi. apply H. right. exact Hi.
Qed.

(** ** The flat layout *)

Lemma flat_cons p s : flat (p :: s) = flat_point p ++ flat s.
Proof. reflexivity. Qed.

Lemma length_flat s : length (flat s) = (3 * length s)%nat.
Proof.
  induction s as [|[[x y] z] s IH]; [reflexivity|].
  rewrite flat_cons, length_app, IH. simpl. lia.
Qed.

Lemma flat_lookup s : forall i x y z rest,
  s !! i = Some (x, y, z) ->
  deref (flat s ++ rest) (i * 3) = x /\
  deref (flat s ++ rest) (i * 3 + 1) = y /\
  deref (flat s ++ rest) (i * 3 + 2) = z.
Proof.
  induction s as [|[[x0 y0] z0] s IH]; intros i x y z rest Hi; [discriminate|].
  destruct i as [|i].
  - injection Hi as -> -> ->. repeat split; reflexivity.
  - simpl in Hi. apply (IH i x y z rest) in Hi.
    replace (Datatypes.S i * 3)%nat with (3 + i * 3)%nat by lia.
    exact Hi.
Qed.

(** ** [min_direct_flip_dist] computes the two means *)

Lemma mul_self_not_negzero x : (x * x)%D <> S754_zero true.
Proof.
  intros E. destruct (is_nan x) eqn:Hn.
  - rewrite mul_self_nan in E by exact Hn. discriminate.
  - apply mul_self_sign in Hn. rewrite E in Hn. discriminate.
Qed.

Lemma point_body_euclid sa sb ra rb n i p q q' d df :
  sa !! i = Some p -> sb !! i = Some q -> sb !! (n - 1 - i)%nat = Some q' ->
  point_body (flat sa ++ ra) (flat sb ++ rb) n i (d, df) =
  ((d + euclid p q)%D, (df + euclid p q')%D).
Proof.
  intros Hp Hq Hq'.
  destruct p as [[px py] pz], q as [[qx qy] qz], q' as [[fx fy] fz].
  destruct (flat_lookup sa i px py pz ra Hp) as (Ha0 & Ha1 & Ha2).
  destruct (flat_lookup sb i qx qy qz rb Hq) as (Hb0 & Hb1 & Hb2).
  destruct (flat_lookup sb _ fx fy fz rb Hq') as (Hf0 & Hf1 & Hf2).
  unfold point_body. rewrite for_range_3. unfold coord_body.
  rewrite !Nat.add_0_r, Ha0, Ha1, Ha2, Hb0, Hb1, Hb2, Hf0, Hf1, Hf2.
  rewrite !add_zero_l by apply mul_self_not_negzero.
  reflexivity.
Qed.

Lemma dsum_zip_with_seq (F : nat -> double) (f : point -> point -> double)
    (sa sb : streamline) (n : nat) :
  length sa = n -> length sb = n ->
  (forall i p q, sa !! i = Some p -> sb !! i = Some q -> F i = f p q) ->
  map F (seq 0 n) = zip_with f sa sb.
Proof.
  intros Ha Hb HF. apply list_eq. intros i.
  change (map F (seq 0 n)) with (F <$> seq 0 n).
  rewrite list_lookup_fmap, lookup_zip_with.
  destruct (decide (i < n)%nat) as [Hi|Hi].
  - rewrite lookup_seq_lt by exact Hi. simpl.
    destruct (lookup_lt_is_Some_2 sa i ltac:(lia)) as [p Hp].
    destruct (lookup_lt_is_Some_2 sb i ltac:(lia)) as [q Hq].
    rewrite Hp, Hq. simpl. f_equal. apply HF; assumption.
  - rewrite lookup_seq_ge by lia. simpl.
    rewrite (lookup_ge_None_2 sa) by lia. reflexivity.
Qed.

Lemma scan_means sa sb ra rb n :
  length sa = n -> length sb = n ->
  for_range n (point_body (flat sa ++ ra) (flat sb ++ rb) n) (zero, zero) =
  (dsum (zip_with euclid sa sb), dsum (zip_with euclid sa (reverse sb))).
Proof.
  intros Ha Hb. unfold for_range, dsum.
  set (F := fun i => euclid (default origin (sa !! i)) (default origin (sb !! i))).
  set (G := fun i => euclid (default origin (sa !! i))
                            (default origin (sb !! (n - 1 - i)%nat))).
  rewrite (fold_left_two_sums F G).
  - f_equal; f_equal.
    + apply dsum_zip_with_seq; try assumption.
      intros i p q Hp Hq. unfold F. rewrite Hp, Hq. reflexivity.
    + apply dsum_zip_with_seq; rewrite ?length_reverse; try assumption.
      intros i p q Hp Hq. unfold G. rewrite Hp.
      assert (Hi : (i < length sb)%nat)
        by (apply lookup_lt_Some in Hp; lia).
      rewrite reverse_lookup in Hq by exact Hi.
      replace (n - 1 - i)%nat with (length sb - Datatypes.S i)%nat by lia.
      rewrite Hq. reflexivity.
  - intros i d df Hi. apply in_seq in Hi.
    destruct (lookup_lt_is_Some_2 sa i ltac:(lia)) as [p Hp].
    destruct (lookup_lt_is_Some_2 sb i ltac:(lia)) as [q Hq].
    destruct (lookup_lt_is_Some_2 sb (n - 1 - i)%nat ltac:(lia)) as [q' Hq'].
    rewrite (point_body_euclid sa sb ra rb n i p q q') by assumption.
    unfold F, G. rewrite Hp, Hq, Hq'. reflexivity.
Qed.

Lemma min_direct_flip_dist_spec
    (sa sb : streamline) (ra rb : list double) (rows : Z) :
  Z.of_nat (length sa) = rows -> Z.of_nat (length sb) = rows ->
  min_direct_flip_dist (flat sa ++ ra) (flat sb ++ rb) rows =
  pair_distance_spec sa sb.
Proof.
  intros Ha Hb. unfold min_direct_flip_dist.
  rewrite (scan_means sa sb ra rb (Z.to_nat rows)) by lia.
  unfold pair_distance_spec, direct_mean, flipped_mean, dmean.
  rewrite !length_zip_with, length_reverse.
  replace (Z.of_nat (length sa `min` length sb)) with rows by lia.
  reflexivity.
Qed.

(** The value selected by [<=] is a minimum when neither mean is NaN. *)
Lemma select_is_min x y :
  is_nan x = false -> is_nan y = false ->
  let r := if (x <=? y)%D then x else y in
  (r <=? x)%D = true /\ (r <=? y)%D = true.
Proof.
  intros Hx Hy. cbv zeta.
  destruct (x <=? y)%D eqn:Hle.
  - split; [apply leb_refl, Hx|exact Hle].
  - split; [apply leb_total; assumption|apply leb_refl, Hy].
Qed.

(** C1: on two streamlines of [rows] points each, laid out flat at the two
    pointers, [min_direct_flip_dist] returns the smaller of the direct mean
    (point [i] of [a] against point [i] of [b]) and the flipped mean (point
    [i] of [a] against point [rows-1-i] of [b]) of the point-to-point
    Euclidean distances: it is one of the two, it is below both when
    neither is NaN, and it is the direct mean when the two compare equal. *)
Theorem min_direct_flip_dist_is_min_of_means
    (sa sb : streamline) (ra rb : list double) (rows : Z) :
  Z.of_nat (length sa) = rows -> Z.of_nat (length sb) = rows ->
  let r := min_direct_flip_dist (flat sa ++ ra) (flat sb ++ rb) rows in
  r = pair_distance_spec sa sb
  /\ (r = direct_mean sa sb \/ r = flipped_mean sa sb)
  /\ (is_nan (direct_mean sa sb) = false -> is_nan (flipped_mean sa sb) = false ->
      (r <=? direct_mean sa sb)%D = true /\ (r <=? flipped_mean sa sb)%D = true)
  /\ (SFeqb (direct_mean sa sb) (flipped_mean sa sb) = true ->
      r = direct_mean sa sb).
Proof.
  intros Ha Hb r. subst r.
  rewrite (min_direct_flip_dist_spec sa sb ra rb rows Ha Hb).
  unfold pair_distance_spec.
  split; [reflexivity|]. split; [destruct (_ <=? _)%D; auto|]. split.
  - intros Hd Hf. apply (select_is_min _ _ Hd Hf).
  - intros Heq. rewrite (eqb_leb _ _ Heq). reflexivity.
Qed.

(** ** Values that are not negative *)

Lemma add_nan_l y : (nan + y)%D = nan.
Proof. reflexivity. Qed.

Lemma add_nan_r x : (x + nan)%D = nan.
Proof. destruct x as [[]|[]| |[] m e]; reflexivity. Qed.

Lemma not_neg_cases x : not_neg x = true -> x = nan \/ is_pos x = true.
Proof.
  unfold not_neg. destruct x; simpl; intros H; auto; discriminate.
Qed.

Lemma is_pos_not_neg x : is_pos x = true -> not_neg x = true.
Proof. unfold not_neg. intros ->. apply orb_true_r. Qed.

Lemma add_not_neg x y :
  not_neg x = true -> not_neg y = true -> not_neg (x + y)%D = true.
Proof.
  intros Hx Hy.
  destruct (not_neg_cases x Hx) as [->|Px]; [reflexivity|].
  destruct (not_neg_cases y Hy) as [->|Py]; [rewrite add_nan_r; reflexivity|].
  apply is_pos_not_neg, add_pos; assumption.
Qed.

Lemma mul_self_not_neg x : not_neg (x * x)%D = true.
Proof.
  destruct (is_nan x) eqn:Hn.
  - rewrite mul_self_nan by exact Hn. reflexivity.
  - apply is_pos_not_neg, mul_self_sign, Hn.
Qed.

Lemma sqrt_not_neg x : not_neg x = true -> not_neg (sqrt x) = true.
Proof.
  intros Hx. destruct (not_neg_cases x Hx) as [->|Px]; [reflexivity|].
  apply is_pos_not_neg, sqrt_pos, Px.
Qed.

Lemma div_not_neg x y :
  not_neg x = true -> is_pos y = true -> not_neg (x / y)%D = true.
Proof.
  intros Hx Py. destruct (not_neg_cases x Hx) as [->|Px]; [reflexivity|].
  destruct (div_sign false false x y Px Py) as [Hn|Hp];
    unfold not_neg; [rewrite Hn|unfold is_pos; rewrite (Hp : has_sign false _ = true)];
    auto using orb_true_r.
Qed.

Create HintDb sign.
#[local] Hint Resolve add_not_neg mul_self_not_neg sqrt_not_neg
  add_pos sqrt_pos is_pos_not_neg : sign.

Lemma is_pos_leb_zero x : is_pos x = true -> (zero <=? x)%D = true.
Proof. destruct x as [[]|[]| |[] m e]; cbv; congruence. Qed.

Lemma is_pos_le_zero_eq x :
  is_pos x = true -> (x <=? zero)%D = true -> x = zero.
Proof. destruct x as [[]|[]| |[] m e]; cbv; congruence. Qed.

Lemma of_int_pos n : 0 <= n -> is_pos (of_int n) = true.
Proof.
  intros Hn. destruct n as [|p|p]; try lia; [reflexivity|].
  apply binary_normalize_pos.
Qed.

Lemma for_range_inv {S : Type} (P : S -> Prop) (n : nat) (f : nat -> S -> S) (s : S) :
  P s -> (forall i s, (i < n)%nat -> P s -> P (f i s)) -> P (for_range n f s).
Proof.
  intros H0 Hstep. induction n as [|n IH]; [exact H0|].
  rewrite for_range_S. apply Hstep; [lia|]. apply IH.
  intros i s' Hi. apply Hstep. lia.
Qed.

(** Both accumulators of [min_direct_flip_dist] stay NaN or non-negative,
    whatever the cells hold. *)
Lemma scan_not_neg a b n :
  let r := for_range n (point_body a b n) (zero, zero) in
  not_neg (fst r) = true /\ not_neg (snd r) = true.
Proof.
  apply (for_range_inv (fun r => not_neg (fst r) = true /\ not_neg (snd r) = true));
    [split; reflexivity|].
  intros i [d df] _ [Hd Hdf]. simpl in Hd, Hdf.
  unfold point_body.
  pose proof (for_range_inv
    (fun r : double * double => not_neg (fst r) = true /\ not_neg (snd r) = true)
    3 (coord_body a b n i) (zero, zero)) as H3.
  destruct (for_range 3 (coord_body a b n i) (zero, zero)) as [t tf].
  destruct H3 as [Ht Htf]; [split; reflexivity| |].
  - intros j [u uf] _ [Hu Huf]. simpl in Hu, Huf. unfold coord_body. simpl.
    split; auto with sign.
  - simpl in Ht, Htf. simpl.
    split; auto with sign.
Qed.

Lemma div_zero_by_negative y :
  has_sign true y = true -> (zero / y)%D = nan \/ (zero / y)%D = S754_zero true.
Proof. destruct y as [[]|[]| |[] m e]; cbv; intros H; auto; discriminate. Qed.

Lemma min_direct_flip_dist_not_neg a b rows :
  let r := min_direct_flip_dist a b rows in
  is_nan r = true \/ (zero <=? r)%D = true.
Proof.
  unfold min_direct_flip_dist.
  destruct (Z_lt_le_dec rows 0) as [Hneg|Hpos].
  - destruct rows as [|p|p]; try lia.
    change (Z.to_nat (Zneg p)) with 0%nat.
    change (for_range 0 (point_body a b 0) (zero, zero)) with (zero, zero).
    cbv beta iota zeta.
    destruct (div_zero_by_negative (of_int (Zneg p)) (binary_round_sign true p 0))
      as [->| ->]; simpl; auto.
  - pose proof (scan_not_neg a b (Z.to_nat rows)) as [Hd Hf].
    destruct (for_range _ _ _) as [d df]. simpl in Hd, Hf.
    pose proof (div_not_neg d _ Hd (of_int_pos rows Hpos)) as H1.
    pose proof (div_not_neg df _ Hf (of_int_pos rows Hpos)) as H2.
    cbv zeta.
    destruct (_ <=? _)%D;
      [destruct (not_neg_cases _ H1) as [->|P]|destruct (not_neg_cases _ H2) as [->|P]];
      auto using is_pos_leb_zero.
Qed.

(** ** The Euclidean distance and the means *)

Lemma euclid_sym p q : euclid p q = euclid q p.
Proof.
  destruct p as [[px py] pz], q as [[qx qy] qz]. unfold euclid.
  rewrite (sub_swap_sq px qx), (sub_swap_sq py qy), (sub_swap_sq pz qz).
  reflexivity.
Qed.

Lemma euclid_not_neg p q : not_neg (euclid p q) = true.
Proof.
  destruct p as [[px py] pz], q as [[qx qy] qz]. unfold euclid.
  auto 6 with sign.
Qed.

Lemma finite_point_coords x y z :
  finite_point (x, y, z) = true ->
  is_finite x = true /\ is_finite y = true /\ is_finite z = true.
Proof.
  simpl. rewrite !andb_true_iff. tauto.
Qed.

Lemma euclid_pos p q :
  finite_point p = true -> finite_point q = true -> is_pos (euclid p q) = true.
Proof.
  destruct p as [[px py] pz], q as [[qx qy] qz]. intros Hp Hq.
  apply finite_point_coords in Hp as (Hx & Hy & Hz).
  apply finite_point_coords in Hq as (Hx' & Hy' & Hz').
  unfold euclid.
  apply sqrt_pos; repeat apply add_pos;
    apply mul_self_sign, sub_finite_not_nan; assumption.
Qed.

Lemma euclid_self p : finite_point p = true -> euclid p p = zero.
Proof.
  destruct p as [[px py] pz]. intros Hp.
  apply finite_point_coords in Hp as (Hx & Hy & Hz).
  unfold euclid. rewrite !sub_self by assumption. reflexivity.
Qed.

Lemma finite_streamline_lookup s i p :
  finite_streamline s = true -> s !! i = Some p -> finite_point p = true.
Proof.
  revert i. induction s as [|q s IH]; intros i Hs Hi; [discriminate|].
  simpl in Hs. apply andb_true_iff in Hs as [Hq Hs].
  destruct i as [|i]; [injection Hi as <-; exact Hq|].
  apply (IH i Hs Hi).
Qed.

Lemma Forall_zip_with_lookup (P : double -> Prop) (f : point -> point -> double)
    (sa sb : streamline) :
  (forall i p q, sa !! i = Some p -> sb !! i = Some q -> P (f p q)) ->
  Forall P (zip_with f sa sb).
Proof.
  intros H. apply Forall_lookup. intros i x Hx.
  rewrite lookup_zip_with in Hx.
  destruct (sa !! i) as [p|] eqn:Hp; [|discriminate].
  destruct (sb !! i) as [q|] eqn:Hq; [|discriminate].
  simpl in Hx. injection Hx as <-. apply (H i); assumption.
Qed.

Lemma fold_add_pos l : forall d,
  is_pos d = true -> Forall (fun x => is_pos x = true) l ->
  is_pos (fold_left add l d) = true.
Proof.
  induction l as [|x l IH]; intros d Hd Hl; [exact Hd|].
  inversion Hl; subst. simpl. apply IH; [apply add_pos|]; assumption.
Qed.

Lemma fold_add_zeros l : Forall (fun x => x = zero) l -> dsum l = zero.
Proof.
  unfold dsum. induction l as [|x l IH]; intros Hl; [reflexivity|].
  inversion Hl; subst. simpl. apply IH. assumption.
Qed.

Lemma dmean_pos l :
  1 <= Z.of_nat (length l) < 2 ^ 63 ->
  Forall (fun x => is_pos x = true) l -> is_pos (dmean l) = true.
Proof.
  intros Hn Hl. unfold dmean.
  destruct (of_int_finite _ Hn) as (m & e & ->).
  apply (div_by_finite false false), fold_add_pos; [reflexivity|exact Hl].
Qed.

Lemma dmean_zeros l :
  1 <= Z.of_nat (length l) < 2 ^ 63 ->
  Forall (fun x => x = zero) l -> dmean l = zero.
Proof.
  intros Hn Hl. unfold dmean.
  destruct (of_int_finite _ Hn) as (m & e & ->).
  rewrite fold_add_zeros by exact Hl. reflexivity.
Qed.

Lemma finite_streamline_reverse s :
  finite_streamline s = true -> finite_streamline (reverse s) = true.
Proof.
  unfold finite_streamline. rewrite !forallb_forall.
  intros H p Hp. apply H.
  apply list_elem_of_In. apply list_elem_of_In in Hp.
  rewrite elem_of_reverse in Hp. exact Hp.
Qed.

Lemma direct_mean_pos sa sb :
  1 <= Z.of_nat (length sa) < 2 ^ 63 -> length sb = length sa ->
  finite_streamline sa = true -> finite_streamline sb = true ->
  is_pos (direct_mean sa sb) = true.
Proof.
  intros Hn Hlen Ha Hb. apply dmean_pos.
  - rewrite length_zip_with. lia.
  - apply Forall_zip_with_lookup. intros i p q Hp Hq.
    apply euclid_pos;
      [apply (finite_streamline_lookup sa i p Ha Hp)
      |apply (finite_streamline_lookup sb i q Hb Hq)].
Qed.

Lemma flipped_mean_pos sa sb :
  1 <= Z.of_nat (length sa) < 2 ^ 63 -> length sb = length sa ->
  finite_streamline sa = true -> finite_streamline sb = true ->
  is_pos (flipped_mean sa sb) = true.
Proof.
  intros Hn Hlen Ha Hb.
  apply (direct_mean_pos sa (reverse sb)); auto using finite_streamline_reverse.
  rewrite length_reverse. exact Hlen.
Qed.

Lemma pair_distance_spec_pos sa sb :
  1 <= Z.of_nat (length sa) < 2 ^ 63 -> length sb = length sa ->
  finite_streamline sa = true -> finite_streamline sb = true ->
  is_pos (pair_distance_spec sa sb) = true.
Proof.
  intros. unfold pair_distance_spec.
  destruct (_ <=? _)%D; auto using direct_mean_pos, flipped_mean_pos.
Qed.

(** C7, as amended: a streamline of at least one point whose coordinates
    are all finite numbers is at distance [+0] from its own reversal. *)
Theorem min_direct_flip_dist_reversal
    (sa : streamline) (ra rb : list double) (rows : Z) :
  1 <= rows < 2 ^ 63 -> Z.of_nat (length sa) = rows ->
  finite_streamline sa = true ->
  min_direct_flip_dist (flat sa ++ ra) (flat (reverse sa) ++ rb) rows = zero.
Proof.
  intros Hr Ha Fa.
  rewrite (min_direct_flip_dist_spec sa (reverse sa) ra rb rows Ha)
    by (rewrite length_reverse; exact Ha).
  assert (Hf : flipped_mean sa (reverse sa) = zero).
  { unfold flipped_mean. rewrite reverse_involutive. apply dmean_zeros.
    - rewrite length_zip_with. lia.
    - apply Forall_zip_with_lookup. intros i p q Hp Hq.
      rewrite Hp in Hq. injection Hq as <-.
      apply euclid_self. apply (finite_streamline_lookup sa i p Fa Hp). }
  unfold pair_distance_spec. rewrite Hf.
  destruct (_ <=? _)%D eqn:Hle; [|reflexivity].
  apply is_pos_le_zero_eq; [|exact Hle].
  apply direct_mean_pos; auto using finite_streamline_reverse; try lia.
  apply length_reverse.
Qed.

(** ** Exchanging the two streamlines *)

Lemma zip_with_euclid_swap (sa sb : streamline) :
  zip_with euclid sb sa = zip_with euclid sa sb.
Proof.
  apply list_eq. intros i. rewrite !lookup_zip_with.
  destruct (sa !! i) as [p|], (sb !! i) as [q|]; simpl; try reflexivity.
  rewrite euclid_sym. reflexivity.
Qed.

Lemma direct_mean_sym sa sb : direct_mean sb sa = direct_mean sa sb.
Proof.
  unfold direct_mean, dmean. rewrite zip_with_euclid_swap. reflexivity.
Qed.

(** The flipped point-to-point distances of [(b, a)] are those of [(a, b)],
    met in the opposite order. *)
Lemma flipped_terms_swap (sa sb : streamline) :
  length sa = length sb ->
  zip_with euclid sb (reverse sa) = reverse (zip_with euclid sa (reverse sb)).
Proof.
  intros Hlen. apply list_eq. intros i.
  set (n := length sb) in *.
  assert (HL : length (zip_with euclid sa (reverse sb)) = n)
    by (rewrite length_zip_with, length_reverse; lia).
  destruct (decide (i < n)%nat) as [Hi|Hi].
  - rewrite reverse_lookup by lia. rewrite HL, !lookup_zip_with.
    rewrite !reverse_lookup by lia. rewrite Hlen. fold n.
    replace (n - Datatypes.S (n - Datatypes.S i))%nat with i by lia.
    destruct (sb !! i) as [q|], (sa !! (n - Datatypes.S i)%nat) as [p|];
      simpl; try reflexivity.
    rewrite euclid_sym. reflexivity.
  - rewrite (lookup_ge_None_2 (reverse _)) by (rewrite length_reverse; lia).
    apply lookup_ge_None_2. rewrite length_zip_with, length_reverse. lia.
Qed.

(** With at most two terms, none of them [-0], the order of a sum does not
    matter. *)
Lemma dsum_reverse_short l :
  (length l <= 2)%nat -> Forall (fun x => not_neg x = true) l ->
  dsum (reverse l) = dsum l.
Proof.
  intros Hlen Hl.
  destruct l as [|x [|y [|z l]]]; try reflexivity; [|simpl in Hlen; lia].
  inversion Hl as [|? ? Hx Hl']; subst. inversion Hl' as [|? ? Hy _]; subst.
  assert (Nx : x <> S754_zero true) by (intros ->; discriminate).
  assert (Ny : y <> S754_zero true) by (intros ->; discriminate).
  change (reverse [x; y]) with [y; x]. unfold dsum. cbn [fold_left].
  rewrite !add_zero_l by assumption. apply add_comm.
Qed.

Lemma flipped_mean_sym_short sa sb :
  length sa = length sb -> (length sa <= 2)%nat ->
  flipped_mean sb sa = flipped_mean sa sb.
Proof.
  intros Hlen H2. unfold flipped_mean, dmean.
  rewrite flipped_terms_swap by exact Hlen.
  rewrite length_reverse. f_equal.
  apply dsum_reverse_short.
  - rewrite length_zip_with. lia.
  - apply Forall_zip_with_lookup. intros. apply euclid_not_neg.
Qed.

(** C8, as amended: exchanging the two streamlines leaves the direct mean
    unchanged and reverses the order in which the flipped point-to-point
    distances are summed; with at most two points per streamline the
    distance itself is unchanged. *)
Theorem min_direct_flip_dist_exchange
    (sa sb : streamline) (ra rb ra' rb' : list double) (rows : Z) :
  Z.of_nat (length sa) = rows -> Z.of_nat (length sb) = rows ->
  direct_mean sb sa = direct_mean sa sb
  /\ zip_with euclid sb (reverse sa) = reverse (zip_with euclid sa (reverse sb))
  /\ (rows <= 2 ->
      min_direct_flip_dist (flat sb ++ rb') (flat sa ++ ra') rows =
      min_direct_flip_dist (flat sa ++ ra) (flat sb ++ rb) rows).
Proof.
  intros Ha Hb. split; [apply direct_mean_sym|].
  split; [apply flipped_terms_swap; lia|].
  intros H2.
  rewrite (min_direct_flip_dist_spec sa sb ra rb rows Ha Hb).
  rewrite (min_direct_flip_dist_spec sb sa rb' ra' rows Hb Ha).
  unfold pair_distance_spec.
  rewrite direct_mean_sym, flipped_mean_sym_short by lia. reflexivity.
Qed.

(** ** The heap *)

Lemma store_insert (h : heap) l i v cells :
  h !! l = Some cells -> store h l i v = <[l := <[i := v]> cells]> h.
Proof.
  intros Hl. unfold store. apply map_eq. intros l'.
  destruct (decide (l = l')) as [<-|Hne].
  - rewrite lookup_alter_eq, lookup_insert_eq, Hl. reflexivity.
  - rewrite lookup_alter_ne, lookup_insert_ne by exact Hne. reflexivity.
Qed.

Lemma store_lookup_ne (h : heap) l l' i v :
  l <> l' -> store h l i v !! l' = h !! l'.
Proof. intros Hne. unfold store. apply lookup_alter_ne, Hne. Qed.

Lemma buffer_insert_eq (h : heap) l cells : buffer (<[l := cells]> h) l = cells.
Proof. unfold buffer. rewrite lookup_insert_eq. reflexivity. Qed.

Lemma buffer_insert_ne (h : heap) l l' cells :
  l <> l' -> buffer (<[l := cells]> h) l' = buffer h l'.
Proof. intros Hne. unfold buffer. rewrite lookup_insert_ne by exact Hne. reflexivity. Qed.

Lemma row_ptr_insert_ne (h : heap) l cells A r :
  l <> nd_data A -> row_ptr (<[l := cells]> h) A r = row_ptr h A r.
Proof. intros Hne. unfold row_ptr. rewrite buffer_insert_ne by exact Hne. reflexivity. Qed.

(** A loop on the heap and a loop on the data it represents, in step. *)
Lemma for_range_sim {S X : Type} (R : S -> X -> Prop) (n : nat)
    (f : nat -> S -> S) (g : nat -> X -> X) (s : S) (x : X) :
  R s x ->
  (forall k s x, (k < n)%nat -> R s x -> R (f k s) (g k x)) ->
  R (for_range n f s) (for_range n g x).
Proof.
  intros H0 Hstep. induction n as [|n IH]; [exact H0|].
  rewrite !for_range_S. apply Hstep; [lia|]. apply IH.
  intros k s' x' Hk. apply Hstep. lia.
Qed.

(** ** Filling a matrix, cell by cell *)

Lemma fill_row_spec M T i cells n :
  (n <= M)%nat ->
  let c' := for_range n (fun j (c : list double) => <[(i * M + j)%nat := T i j]> c) cells in
  length c' = length cells /\
  (forall j, (j < n)%nat -> (i * M + j < length cells)%nat ->
             c' !! (i * M + j)%nat = Some (T i j)) /\
  (forall x, (x < i * M \/ i * M + n <= x)%nat -> c' !! x = cells !! x).
Proof.
  intros Hn. induction n as [|n IH]; simpl.
  - repeat split; intros; try reflexivity; lia.
  - rewrite for_range_S. destruct IH as (Hlen & Hin & Hout); [lia|].
    split; [rewrite length_insert; exact Hlen|]. split.
    + intros j Hj Hb. destruct (decide (j = n)) as [->|Hne].
      * apply list_lookup_insert_eq. rewrite Hlen. exact Hb.
      * rewrite list_lookup_insert_ne by lia. apply Hin; lia.
    + intros x Hx. rewrite list_lookup_insert_ne by lia. apply Hout. lia.
Qed.

Lemma fill_spec S M T cells n :
  (n <= S)%nat -> length cells = (S * M)%nat ->
  let c' := for_range n (fill_row M T) cells in
  length c' = length cells /\
  (forall i j, (i < n)%nat -> (j < M)%nat -> c' !! (i * M + j)%nat = Some (T i j)).
Proof.
  intros Hn Hlen. induction n as [|n IH]; simpl.
  - split; [reflexivity|]. intros; lia.
  - rewrite for_range_S. destruct IH as (Hl & Hin); [lia|].
    set (c := for_range n (fill_row M T) cells) in *.
    destruct (fill_row_spec M T n c M (Nat.le_refl M)) as (Hl' & Hin' & Hout').
    fold (fill_row M T n c) in Hl', Hin', Hout'.
    split; [congruence|].
    intros i j Hi Hj. destruct (decide (i = n)) as [->|Hne].
    + apply Hin'; [exact Hj|]. rewrite Hl, Hlen. nia.
    + rewrite Hout' by nia. apply Hin; lia.
Qed.

(** The stack of streamlines, read from row [i * rows] on. *)
Lemma drop_concat_flat (set : list streamline) (rows : nat) : forall i s,
  Forall (fun s => length s = rows) set -> set !! i = Some s ->
  exists rest, drop (i * rows * 3) (concat (map flat set)) = flat s ++ rest.
Proof.
  induction set as [|s0 set IH]; intros i s Hall Hi; [discriminate|].
  inversion Hall as [|? ? H0 Hall']; subst.
  destruct i as [|i].
  - injection Hi as <-. simpl. eauto.
  - simpl in Hi. destruct (IH i s Hall' Hi) as [rest Hrest].
    exists rest. simpl concat.
    rewrite drop_app_ge by (rewrite length_flat; lia).
    rewrite length_flat.
    replace (Datatypes.S i * length s0 * 3 - 3 * length s0)%nat
      with (i * length s0 * 3)%nat by lia.
    exact Hrest.
Qed.

Lemma min_direct_flip_dist_tail sa sb ra rb rows :
  Z.of_nat (length sa) = rows -> Z.of_nat (length sb) = rows ->
  min_direct_flip_dist (flat sa ++ ra) (flat sb ++ rb) rows =
  min_direct_flip_dist (flat sa) (flat sb) rows.
Proof.
  intros Ha Hb.
  rewrite (min_direct_flip_dist_spec sa sb ra rb rows Ha Hb).
  pose proof (min_direct_flip_dist_spec sa sb [] [] rows Ha Hb) as E.
  rewrite !app_nil_r in E. symmetry. exact E.
Qed.

Lemma row_ptr_holds_set h A set rows i s :
  holds_set h A set rows -> set !! i = Some s ->
  exists rest, row_ptr h A (i * rows) = flat s ++ rest.
Proof.
  intros (Hbuf & Hcols & Hall) Hi.
  unfold row_ptr, buffer. rewrite Hbuf, Hcols. simpl.
  apply drop_concat_flat; assumption.
Qed.

(** The loops of [_bundle_minimum_distance_matrix] on a matrix [D] of [S]
    rows and [M] columns that is neither of the two input arrays. *)
Section MatrixLoops.

Variables (h : heap) (static moving D : ndarray) (S M : nat) (rows : Z).
Variable cells : list double.
Hypothesis D_not_static : nd_data D <> nd_data static.
Hypothesis D_not_moving : nd_data D <> nd_data moving.
Hypothesis D_columns : nd_shape1 D = M.
Hypothesis D_cells : h !! nd_data D = Some cells.

(** What goes to cell [(i, j)]. *)
Let T (i j : nat) : double :=
  min_direct_flip_dist (row_ptr h static (i * Z.to_nat rows))
                       (row_ptr h moving (j * Z.to_nat rows)) rows.

(** Both loops, as one update of the buffer of [D]. *)
Lemma matrix_loops_fill :
  _bundle_minimum_distance_matrix h static moving (Z.of_nat S) (Z.of_nat M) rows D =
  <[nd_data D := fill S M T cells]> h.
Proof using D_not_static D_not_moving D_columns D_cells.
  unfold _bundle_minimum_distance_matrix, fill. rewrite !Nat2Z.id.
  set (R := fun (h' : heap) (c : list double) => h' = <[nd_data D := c]> h).
  assert (R0 : R h cells) by (unfold R; symmetry; apply insert_id, D_cells).
  apply (for_range_sim R); [exact R0|].
  intros i h1 c1 _ R1. unfold fill_row.
  apply (for_range_sim R); [exact R1|].
  intros j h2 c2 _ R2. unfold R in *. subst h2.
  unfold store2.
  rewrite (store_insert _ _ _ _ c2) by apply lookup_insert_eq.
  rewrite insert_insert_eq, !row_ptr_insert_ne, D_columns by assumption.
  reflexivity.
Qed.

Hypothesis D_size : length cells = (S * M)%nat.

Lemma matrix_cell i j :
  (i < S)%nat -> (j < M)%nat ->
  load2 (_bundle_minimum_distance_matrix h static moving
           (Z.of_nat S) (Z.of_nat M) rows D) D i j =
  min_direct_flip_dist (row_ptr h static (i * Z.to_nat rows))
                       (row_ptr h moving (j * Z.to_nat rows)) rows.
Proof using D_not_static D_not_moving D_columns D_cells D_size.
  intros Hi Hj. rewrite matrix_loops_fill.
  destruct (fill_spec S M T cells S (Nat.le_refl S) D_size) as [_ Hcells].
  fold (fill S M T cells) in Hcells.
  unfold load2, load. rewrite buffer_insert_eq. unfold deref.
  rewrite D_columns, Hcells by assumption. reflexivity.
Qed.

Lemma matrix_buffer_length :
  length (buffer (_bundle_minimum_distance_matrix h static moving
                    (Z.of_nat S) (Z.of_nat M) rows D) (nd_data D)) = (S * M)%nat.
Proof using D_not_static D_not_moving D_columns D_cells D_size.
  rewrite matrix_loops_fill.
  destruct (fill_spec S M T cells S (Nat.le_refl S) D_size) as [Hl _].
  fold (fill S M T cells) in Hl.
  rewrite buffer_insert_eq. congruence.
Qed.

End MatrixLoops.

(** C6, as amended: the distance is never negative.  It is NaN or at least
    zero on every input, and at least zero (so not NaN) when there is at
    least one point and every coordinate is a finite number; accordingly
    every cell of the distance matrix is NaN or at least zero. *)
Theorem min_direct_flip_dist_nonneg_or_nan :
  (forall (a b : ptr) (rows : Z),
     is_nan (min_direct_flip_dist a b rows) = true \/
     (zero <=? min_direct_flip_dist a b rows)%D = true) /\
  (forall (sa sb : streamline) (ra rb : list double) (rows : Z),
     1 <= rows < 2 ^ 63 ->
     Z.of_nat (length sa) = rows -> Z.of_nat (length sb) = rows ->
     finite_streamline sa = true -> finite_streamline sb = true ->
     (zero <=? min_direct_flip_dist (flat sa ++ ra) (flat sb ++ rb) rows)%D = true) /\
  (forall (h : heap) static moving D (S M : nat) rows (cells : list double) i j,
     nd_data D <> nd_data static -> nd_data D <> nd_data moving ->
     nd_shape1 D = M -> h !! nd_data D = Some cells ->
     length cells = (S * M)%nat -> (i < S)%nat -> (j < M)%nat ->
     let c := load2 (_bundle_minimum_distance_matrix h static moving
                       (Z.of_nat S) (Z.of_nat M) rows D) D i j in
     is_nan c = true \/ (zero <=? c)%D = true).
Proof.
  split; [|split].
  - intros a b rows. apply min_direct_flip_dist_not_neg.
  - intros sa sb ra rb rows Hr Ha Hb Fa Fb.
    rewrite (min_direct_flip_dist_spec sa sb ra rb rows Ha Hb).
    apply is_pos_leb_zero, pair_distance_spec_pos; auto; lia.
  - intros h static moving D S M rows cells i j Ds Dm HM Hc Hlen Hi Hj c.
    subst c. rewrite (matrix_cell h static moving D S M rows cells) by assumption.
    apply min_direct_flip_dist_not_neg.
Qed.

(** ** [distance_matrix_mdf]: normalisation and filling *)

Lemma holds_streamline_weaken (h h' : heap) a s :
  h ⊆ h' -> holds_streamline h a s -> holds_streamline h' a s.
Proof.
  intros Hsub [Hbuf Hlen]. split; [|exact Hlen].
  eapply lookup_weaken; eassumption.
Qed.

Lemma np_ascontiguousarray_subseteq w a :
  w_heap w ⊆ w_heap (fst (np_ascontiguousarray w a)).
Proof.
  unfold np_ascontiguousarray. destruct (nd_contig a); simpl; [reflexivity|].
  apply insert_subseteq, not_elem_of_dom, is_fresh.
Qed.

Lemma np_ascontiguousarray_spec w a s l0 :
  holds_streamline (w_heap w) a s -> is_Some (w_heap w !! l0) -> nd_data a <> l0 ->
  holds_streamline (w_heap (fst (np_ascontiguousarray w a)))
                   (snd (np_ascontiguousarray w a)) s /\
  nd_data (snd (np_ascontiguousarray w a)) <> l0.
Proof.
  intros [Hbuf Hlen] Hl0 Hne. unfold np_ascontiguousarray.
  destruct (nd_contig a); simpl; [repeat split; assumption|].
  split; [split|]; simpl.
  - rewrite lookup_insert_eq. unfold buffer. rewrite Hbuf. reflexivity.
  - exact Hlen.
  - intros E. apply elem_of_dom in Hl0. rewrite <- E in Hl0.
    exact (is_fresh _ Hl0).
Qed.

Lemma normalize_subseteq streamlines : forall w acc,
  w_heap w ⊆ w_heap (fst (fold_left normalize_step streamlines (w, acc))).
Proof.
  induction streamlines as [|a l IH]; intros w acc; simpl; [reflexivity|].
  pose proof (np_ascontiguousarray_subseteq w a) as H1.
  destruct (np_ascontiguousarray w a) as [w1 a64]. simpl in H1.
  etransitivity; [exact H1|apply IH].
Qed.

Lemma normalize_spec l0 streamlines : forall slist w acc sacc,
  Forall2 (holds_streamline (w_heap w)) acc sacc ->
  Forall (fun t => nd_data t <> l0) acc ->
  Forall2 (holds_streamline (w_heap w)) streamlines slist ->
  Forall (fun a => nd_data a <> l0) streamlines ->
  is_Some (w_heap w !! l0) ->
  let r := fold_left normalize_step streamlines (w, acc) in
  Forall2 (holds_streamline (w_heap (fst r))) (snd r) (sacc ++ slist) /\
  Forall (fun t => nd_data t <> l0) (snd r).
Proof.
  induction streamlines as [|a l IH]; intros slist w acc sacc Hacc Dacc Hl Dl Hl0.
  - inversion Hl; subst. simpl. rewrite app_nil_r. auto.
  - inversion Hl as [|? s ? slist' Ha Hl']; subst.
    inversion Dl as [|? ? Da Dl']; subst.
    simpl fold_left.
    pose proof (np_ascontiguousarray_subseteq w a) as Hsub.
    destruct (np_ascontiguousarray_spec w a s l0 Ha Hl0 Da) as [Ha64 Da64].
    destruct (np_ascontiguousarray w a) as [w1 a64]. simpl in Hsub, Ha64, Da64.
    replace (sacc ++ s :: slist') with ((sacc ++ [s]) ++ slist')
      by (rewrite <- app_assoc; reflexivity).
    apply IH.
    + apply Forall2_app; [|constructor; [exact Ha64|constructor]].
      eapply Forall2_impl; [exact Hacc|].
      intros; eapply holds_streamline_weaken; eassumption.
    + apply Forall_app. split; [exact Dacc|constructor; [exact Da64|constructor]].
    + eapply Forall2_impl; [exact Hl'|].
      intros; eapply holds_streamline_weaken; eassumption.
    + exact Dl'.
    + destruct Hl0 as [c Hc]. exists c. eapply lookup_weaken; eassumption.
Qed.

Lemma fill_matrix_heap tracksA64 tracksB64 t_len DM w cells :
  Forall (fun t => nd_data t <> nd_data DM) tracksA64 ->
  Forall (fun t => nd_data t <> nd_data DM) tracksB64 ->
  nd_shape1 DM = length tracksB64 ->
  w_heap w !! nd_data DM = Some cells ->
  w_heap (fill_matrix tracksA64 tracksB64 t_len DM w) =
  <[nd_data DM := fill (length tracksA64) (length tracksB64)
                       (cell_value (w_heap w) tracksA64 tracksB64 t_len) cells]>
    (w_heap w).
Proof.
  intros DA DB HM Hc. unfold fill_matrix, fill.
  set (h := w_heap w).
  set (R := fun (w' : world) (c : list double) => w_heap w' = <[nd_data DM := c]> h).
  assert (R0 : R w cells) by (unfold R; symmetry; apply insert_id, Hc).
  apply (for_range_sim R); [exact R0|].
  intros i w1 c1 Hi R1.
  destruct (lookup_lt_is_Some_2 tracksA64 i Hi) as [t1 Ht1]. rewrite Ht1.
  unfold fill_row.
  apply (for_range_sim R); [exact R1|].
  intros j w2 c2 Hj R2.
  destruct (lookup_lt_is_Some_2 tracksB64 j Hj) as [t2 Ht2]. rewrite Ht2.
  unfold R in *. simpl. rewrite R2. unfold store2.
  rewrite (store_insert _ _ _ _ c2) by apply lookup_insert_eq.
  rewrite insert_insert_eq, HM.
  unfold cell_value, data_ptr. rewrite Ht1, Ht2.
  rewrite !buffer_insert_ne; [reflexivity| |].
  - intros E. exact (Forall_lookup_1 _ _ _ _ DB Ht2 (eq_sym E)).
  - intros E. exact (Forall_lookup_1 _ _ _ _ DA Ht1 (eq_sym E)).
Qed.

Lemma fill_matrix_frame tracksA64 tracksB64 t_len DM w l :
  l <> nd_data DM ->
  w_heap (fill_matrix tracksA64 tracksB64 t_len DM w) !! l = w_heap w !! l.
Proof.
  intros Hne. unfold fill_matrix.
  apply (for_range_inv (fun w' => w_heap w' !! l = w_heap w !! l)); [reflexivity|].
  intros i w1 _ H1. destruct (tracksA64 !! i) as [t1|]; [|exact H1].
  apply (for_range_inv (fun w' => w_heap w' !! l = w_heap w !! l)); [exact H1|].
  intros j w2 _ H2. destruct (tracksB64 !! j) as [t2|]; [|exact H2].
  simpl. unfold store2. rewrite store_lookup_ne by congruence. exact H2.
Qed.

(** ** The distance matrix *)

Lemma matrix_path_cells h static moving D sset mset rows cells :
  holds_set h static sset rows -> holds_set h moving mset rows ->
  nd_data D <> nd_data static -> nd_data D <> nd_data moving ->
  nd_shape1 D = length mset -> h !! nd_data D = Some cells ->
  length cells = (length sset * length mset)%nat ->
  let h' := _bundle_minimum_distance_matrix h static moving
              (Z.of_nat (length sset)) (Z.of_nat (length mset)) (Z.of_nat rows) D in
  length (buffer h' (nd_data D)) = (length sset * length mset)%nat /\
  forall i j s m, sset !! i = Some s -> mset !! j = Some m ->
    load2 h' D i j = min_direct_flip_dist (flat s) (flat m) (Z.of_nat rows).
Proof.
  intros Hs Hm Ds Dm HM Hc Hlen h'. subst h'.
  split; [apply (matrix_buffer_length _ _ _ _ _ _ _ cells); assumption|].
  intros i j s m Hi Hj.
  rewrite (matrix_cell _ _ _ _ _ _ _ cells)
    by (try assumption; eapply lookup_lt_Some; eassumption).
  rewrite Nat2Z.id.
  destruct (row_ptr_holds_set h static sset rows i s Hs Hi) as [ra ->].
  destruct (row_ptr_holds_set h moving mset rows j m Hm Hj) as [rb ->].
  destruct Hs as (_ & _ & Hall_s). destruct Hm as (_ & _ & Hall_m).
  pose proof (Forall_lookup_1 _ _ _ _ Hall_s Hi) as Ls.
  pose proof (Forall_lookup_1 _ _ _ _ Hall_m Hj) as Lm.
  simpl in Ls, Lm.
  apply min_direct_flip_dist_tail; lia.
Qed.

Lemma holds_streamline_data_ptr h a s :
  holds_streamline h a s -> data_ptr h a = flat s.
Proof. intros [Hbuf _]. unfold data_ptr, buffer. rewrite Hbuf. reflexivity. Qed.

Lemma holds_streamline_not_fresh (h : heap) a s :
  holds_streamline h a s -> nd_data a <> fresh (dom h).
Proof.
  intros [Hbuf _] E. apply (is_fresh (dom h)). rewrite <- E.
  apply elem_of_dom. eauto.
Qed.

Lemma mdf_path_cells w A B SA SB rows :
  Forall2 (holds_streamline (w_heap w)) A SA ->
  Forall2 (holds_streamline (w_heap w)) B SB ->
  Forall (fun s => length s = rows) SA -> Forall (fun s => length s = rows) SB ->
  A <> [] -> B <> [] ->
  exists w' DM,
    distance_matrix_mdf w A B = (w', inr DM) /\
    nd_shape0 DM = length A /\ nd_shape1 DM = length B /\
    w_heap w !! nd_data DM = None /\
    length (buffer (w_heap w') (nd_data DM)) = (length A * length B)%nat /\
    forall i j s m, SA !! i = Some s -> SB !! j = Some m ->
      load2 (w_heap w') DM i j = min_direct_flip_dist (flat s) (flat m) (Z.of_nat rows).
Proof.
  intros HA HB LA LB NA NB.
  destruct A as [|a0 A']; [congruence|]. destruct B as [|b0 B']; [congruence|].
  inversion HA as [|? s0 ? SA' Ha0 HA']; subst.
  inversion HB as [|? m0 ? SB' Hb0 HB']; subst.
  inversion LA as [|? ? Ls0 _]; subst. inversion LB as [|? ? Lm0 _]; subst.
  unfold distance_matrix_mdf.
  set (lentA := length (a0 :: A')). set (lentB := length (b0 :: B')).
  set (w0 := emit (Alloc_objects lentB) (emit (Alloc_objects lentA) w)).
  set (l := fresh (dom (w_heap w))).
  set (cells := replicate (lentA * lentB) zero).
  unfold np_zeros, alloc. simpl w_heap. fold l. fold cells.
  set (DM := {| nd_data := l; nd_shape0 := lentA; nd_shape1 := lentB; nd_contig := true |}).
  set (w1 := {| w_heap := <[l := cells]> (w_heap w); w_log := w_log w0 ++ [Alloc_matrix lentA lentB] |}).
  cbn [lookup list_lookup].
  replace (nd_shape0 a0 =? nd_shape0 b0)%nat with true
    by (symmetry; apply Nat.eqb_eq; destruct Ha0, Hb0; congruence).
  cbn [negb].
  assert (Hfresh : w_heap w !! l = None) by apply not_elem_of_dom, is_fresh.
  assert (Hsub1 : w_heap w ⊆ w_heap w1) by (apply insert_subseteq, Hfresh).
  assert (Hl1 : w_heap w1 !! l = Some cells) by apply lookup_insert_eq.
  (* the first normalisation *)
  assert (NA1 : Forall (fun t => nd_data t <> l) (a0 :: A')).
  { eapply Forall2_Forall_l; [exact HA|]. apply Forall_true.
    intros s a Ha. eapply holds_streamline_not_fresh, Ha. }
  assert (NB1 : Forall (fun t => nd_data t <> l) (b0 :: B')).
  { eapply Forall2_Forall_l; [exact HB|]. apply Forall_true.
    intros s a Ha. eapply holds_streamline_not_fresh, Ha. }
  pose proof (normalize_spec l (a0 :: A') (s0 :: SA') w1 [] []
                (List.Forall2_nil _) (List.Forall_nil _)) as HnA.
  pose proof (normalize_subseteq (a0 :: A') w1 []) as SubA.
  fold (normalize w1 (a0 :: A')) in HnA, SubA.
  destruct (normalize w1 (a0 :: A')) as [w2 tracksA64] eqn:EA.
  simpl in HnA, SubA.
  destruct HnA as [HtA DtA]; [| exact NA1 | eauto |].
  { eapply Forall2_impl; [exact HA|].
    intros; eapply holds_streamline_weaken; eassumption. }
  (* the second normalisation *)
  pose proof (normalize_spec l (b0 :: B') (m0 :: SB') w2 [] []
                (List.Forall2_nil _) (List.Forall_nil _)) as HnB.
  pose proof (normalize_subseteq (b0 :: B') w2 []) as SubB.
  fold (normalize w2 (b0 :: B')) in HnB, SubB.
  destruct (normalize w2 (b0 :: B')) as [w3 tracksB64] eqn:EB.
  simpl in HnB, SubB.
  destruct HnB as [HtB DtB]; [| exact NB1 | |].
  { eapply Forall2_impl; [exact HB|].
    intros; eapply holds_streamline_weaken; [|eassumption].
    etransitivity; eassumption. }
  { exists cells. eapply lookup_weaken; eassumption. }
  assert (HtA3 : Forall2 (holds_streamline (w_heap w3)) tracksA64 (s0 :: SA')).
  { eapply Forall2_impl; [exact HtA|].
    intros; eapply holds_streamline_weaken; eassumption. }
  assert (Hl3 : w_heap w3 !! l = Some cells).
  { eapply lookup_weaken; [|exact SubB]. eapply lookup_weaken; eassumption. }
  pose proof (Forall2_length _ _ _ HtA3) as LenA.
  pose proof (Forall2_length _ _ _ HtB) as LenB.
  destruct tracksA64 as [|t0 tA]; [discriminate|].
  cbn [lookup list_lookup].
  assert (Ht0 : nd_shape0 t0 = length s0).
  { inversion HtA3 as [|? ? ? ? [_ H] _]; subst. exact H. }
  rewrite Ht0.
  eexists _, DM. split; [reflexivity|].
  assert (LA' : length (t0 :: tA) = lentA)
    by (rewrite LenA; symmetry; eapply Forall2_length; exact HA).
  assert (LB' : length tracksB64 = lentB)
    by (rewrite LenB; symmetry; eapply Forall2_length; exact HB).
  rewrite (fill_matrix_heap (t0 :: tA) tracksB64 _ DM w3 cells)
    by (simpl; auto; congruence).
  rewrite LA', LB'. simpl nd_data. rewrite buffer_insert_eq.
  set (T := cell_value _ _ _ _).
  destruct (fill_spec lentA lentB T cells lentA (Nat.le_refl _))
    as [Hl Hcells]; [apply length_replicate|].
  fold (fill lentA lentB T cells) in Hl, Hcells.
  repeat split; try reflexivity; try assumption.
  - rewrite Hl. apply length_replicate.
  - intros i j s m Hi Hj.
    unfold load2, load. simpl nd_data. simpl nd_shape1.
    rewrite buffer_insert_eq. unfold deref.
    assert (Hi' : (i < lentA)%nat).
    { apply lookup_lt_Some in Hi. unfold lentA. simpl in *.
      apply Forall2_length in HA'. lia. }
    assert (Hj' : (j < lentB)%nat).
    { apply lookup_lt_Some in Hj. unfold lentB. simpl in *.
      apply Forall2_length in HB'. lia. }
    rewrite Hcells by assumption. simpl. unfold T, cell_value.
    destruct (Forall2_lookup_r _ _ _ _ _ HtA3 Hi) as (t1 & Ht1 & Hh1).
    destruct (Forall2_lookup_r _ _ _ _ _ HtB Hj) as (t2 & Ht2 & Hh2).
    rewrite Ht1, Ht2.
    rewrite (holds_streamline_data_ptr _ _ _ Hh1), (holds_streamline_data_ptr _ _ _ Hh2).
    reflexivity.
Qed.

(** C3: the distance-matrix operation writes every cell of the S-by-M
    matrix, and cell [(i, j)] receives the distance between the [i]-th
    static and the [j]-th moving streamline.  This holds for the loops of
    [_bundle_minimum_distance_matrix] on a matrix supplied by the caller,
    whatever it held before, and for [distance_matrix_mdf], which returns a
    new matrix. *)
Theorem distance_matrix_cells :
  (forall h static moving D sset mset rows cells,
     holds_set h static sset rows -> holds_set h moving mset rows ->
     nd_data D <> nd_data static -> nd_data D <> nd_data moving ->
     nd_shape1 D = length mset -> h !! nd_data D = Some cells ->
     length cells = (length sset * length mset)%nat ->
     let h' := _bundle_minimum_distance_matrix h static moving
                 (Z.of_nat (length sset)) (Z.of_nat (length mset))
                 (Z.of_nat rows) D in
     length (buffer h' (nd_data D)) = (length sset * length mset)%nat /\
     forall i j s m, sset !! i = Some s -> mset !! j = Some m ->
       load2 h' D i j = min_direct_flip_dist (flat s) (flat m) (Z.of_nat rows))
  /\
  (forall w A B SA SB rows,
     Forall2 (holds_streamline (w_heap w)) A SA ->
     Forall2 (holds_streamline (w_heap w)) B SB ->
     Forall (fun s => length s = rows) SA ->
     Forall (fun s => length s = rows) SB ->
     A <> [] -> B <> [] ->
     exists w' DM,
       distance_matrix_mdf w A B = (w', inr DM) /\
       nd_shape0 DM = length A /\ nd_shape1 DM = length B /\
       w_heap w !! nd_data DM = None /\
       length (buffer (w_heap w') (nd_data DM)) = (length A * length B)%nat /\
       forall i j s m, SA !! i = Some s -> SB !! j = Some m ->
         load2 (w_heap w') DM i j =
         min_direct_flip_dist (flat s) (flat m) (Z.of_nat rows)).
Proof.
  split.
  - intros h static moving D sset mset rows cells.
    apply (matrix_path_cells h static moving D sset mset rows cells).
  - intros w A B SA SB rows. apply (mdf_path_cells w A B SA SB rows).
Qed.

(** ** The shape check of [distance_matrix_mdf] *)

(** C4, as amended: when the first elements of the two collections differ
    in their point counts, [distance_matrix_mdf] raises [ValueError] before
    it normalises any streamline and before it computes any distance; by
    then it has created the two object arrays and the zero-filled output
    matrix, and has changed nothing else. *)
Theorem distance_matrix_mdf_shape_mismatch w A B a0 b0 :
  A !! 0%nat = Some a0 -> B !! 0%nat = Some b0 ->
  nd_shape0 a0 <> nd_shape0 b0 ->
  snd (distance_matrix_mdf w A B) = inl ValueError /\
  w_log (fst (distance_matrix_mdf w A B)) =
    w_log w ++ [Alloc_objects (length A); Alloc_objects (length B);
                Alloc_matrix (length A) (length B)] /\
  w_heap (fst (distance_matrix_mdf w A B)) =
    <[fresh (dom (w_heap w)) := replicate (length A * length B) zero]> (w_heap w).
Proof.
  intros HA HB Hne. unfold distance_matrix_mdf, np_zeros, alloc.
  cbn [w_heap w_log emit]. rewrite HA, HB.
  replace (nd_shape0 a0 =? nd_shape0 b0)%nat with false
    by (symmetry; apply Nat.eqb_neq, Hne).
  cbn [negb fst snd w_heap w_log].
  rewrite <- !app_assoc. repeat split; reflexivity.
Qed.

(** ** What the operations leave untouched *)

Lemma matrix_loops_frame h static moving static_size moving_size rows D l :
  l <> nd_data D ->
  _bundle_minimum_distance_matrix h static moving static_size moving_size rows D !! l
  = h !! l.
Proof.
  intros Hne. unfold _bundle_minimum_distance_matrix.
  apply (for_range_inv (fun h' : heap => h' !! l = h !! l)); [reflexivity|].
  intros i h1 _ H1.
  apply (for_range_inv (fun h' : heap => h' !! l = h !! l)); [exact H1|].
  intros j h2 _ H2. unfold store2. rewrite store_lookup_ne by congruence. exact H2.
Qed.

Lemma distance_matrix_mdf_frame w A B :
  w_heap w ⊆ w_heap (fst (distance_matrix_mdf w A B)).
Proof.
  unfold distance_matrix_mdf, np_zeros, alloc. cbn [w_heap w_log emit].
  set (l := fresh (dom (w_heap w))).
  set (w1 := {| w_heap := _; w_log := _ |}).
  assert (Hfresh : w_heap w !! l = None) by apply not_elem_of_dom, is_fresh.
  assert (Hsub1 : w_heap w ⊆ w_heap w1) by (apply insert_subseteq, Hfresh).
  destruct (A !! 0%nat) as [a0|]; [|exact Hsub1].
  destruct (B !! 0%nat) as [b0|]; [|exact Hsub1].
  destruct (negb _); [exact Hsub1|].
  pose proof (normalize_subseteq A w1 []) as SubA.
  fold (normalize w1 A) in SubA.
  destruct (normalize w1 A) as [w2 tracksA64]. simpl in SubA.
  pose proof (normalize_subseteq B w2 []) as SubB.
  fold (normalize w2 B) in SubB.
  destruct (normalize w2 B) as [w3 tracksB64]. simpl in SubB.
  assert (Hsub3 : w_heap w ⊆ w_heap w3)
    by (etransitivity; [exact Hsub1|etransitivity; eassumption]).
  destruct (tracksA64 !! 0%nat) as [t0|]; [|exact Hsub3].
  cbn [fst]. apply map_subseteq_spec. intros l' c Hl'.
  rewrite fill_matrix_frame.
  - eapply lookup_weaken; eassumption.
  - cbn [nd_data]. intros ->. congruence.
Qed.

(** ** The reduction, on the cells *)

Lemma deref_insert_eq (l : list double) i v :
  (i < length l)%nat -> deref (<[i := v]> l) i = v.
Proof. intros H. unfold deref. rewrite list_lookup_insert_eq by exact H. reflexivity. Qed.

Lemma deref_insert_ne (l : list double) i k v :
  i <> k -> deref (<[i := v]> l) k = deref l k.
Proof. intros H. unfold deref. rewrite list_lookup_insert_ne by exact H. reflexivity. Qed.

Lemma deref_replicate n v i : (i < n)%nat -> deref (replicate n v) i = v.
Proof.
  intros H. unfold deref. rewrite lookup_replicate_2 by exact H. reflexivity.
Qed.

Lemma fill_const (v : double) n : forall (c : list double) k,
  length c = n -> (k <= n)%nat ->
  let c' := for_range k (fun i (c : list double) => <[i := v]> c) c in
  length c' = n /\
  (forall i, (i < k)%nat -> c' !! i = Some v) /\
  (forall i, (k <= i)%nat -> c' !! i = c !! i).
Proof.
  intros c k Hlen. induction k as [|k IH]; intros Hk; simpl.
  - repeat split; [exact Hlen|intros; lia].
  - rewrite for_range_S. destruct IH as (Hl & Hin & Hout); [lia|].
    split; [rewrite length_insert; exact Hl|]. split.
    + intros i Hi. destruct (decide (i = k)) as [->|Hne].
      * apply list_lookup_insert_eq. lia.
      * rewrite list_lookup_insert_ne by lia. apply Hin. lia.
    + intros i Hi. rewrite list_lookup_insert_ne by lia. apply Hout. lia.
Qed.

Lemma fill_const_replicate (v : double) n (c : list double) :
  length c = n ->
  for_range n (fun i (c : list double) => <[i := v]> c) c = replicate n v.
Proof.
  intros Hlen.
  destruct (fill_const v n c n Hlen (Nat.le_refl n)) as (Hl & Hin & _).
  apply list_eq. intros i. destruct (decide (i < n)%nat) as [Hi|Hi].
  - rewrite Hin by exact Hi. symmetry. apply lookup_replicate_2, Hi.
  - rewrite !lookup_ge_None_2; rewrite ?length_replicate; try lia. reflexivity.
Qed.

Lemma fold_min_spec T i j mj mi :
  (i < length mj)%nat -> (j < length mi)%nat ->
  let r := fold_min T i j (mj, mi) in
  length (fst r) = length mj /\ length (snd r) = length mi /\
  deref (fst r) i = dmin2 (deref mj i) (T i j) /\
  (forall k, k <> i -> deref (fst r) k = deref mj k) /\
  deref (snd r) j = dmin2 (deref mi j) (T i j) /\
  (forall k, k <> j -> deref (snd r) k = deref mi k).
Proof.
  intros Hi Hj. unfold fold_min, dmin2. simpl.
  destruct (T i j <? deref mj i)%D, (T i j <? deref mi j)%D;
    rewrite ?length_insert, ?deref_insert_eq by assumption;
    repeat split; intros; rewrite ?deref_insert_ne by congruence; reflexivity.
Qed.

(** The inner loop, for one static streamline [i]. *)
Lemma scan_row_spec T i M n : forall mj mi,
  (i < length mj)%nat -> length mi = M -> (n <= M)%nat ->
  let r := for_range n (fun j st => fold_min T i j st) (mj, mi) in
  length (fst r) = length mj /\ length (snd r) = M /\
  deref (fst r) i = fold_left dmin2 (map (fun j => T i j) (seq 0 n)) (deref mj i) /\
  (forall k, k <> i -> deref (fst r) k = deref mj k) /\
  (forall j, (j < n)%nat -> deref (snd r) j = dmin2 (deref mi j) (T i j)) /\
  (forall j, (n <= j)%nat -> deref (snd r) j = deref mi j).
Proof.
  intros mj mi Hi Hmi. induction n as [|n IH]; intros Hn.
  - simpl. repeat split; try assumption; try reflexivity. intros; lia.
  - rewrite for_range_S.
    destruct IH as (L1 & L2 & Hrow & Hoth & Hcol & Hrest); [lia|].
    destruct (for_range n _ (mj, mi)) as [mj1 mi1]. cbn [fst snd] in *.
    destruct (fold_min_spec T i n mj1 mi1) as (F1 & F2 & Fi & Fo & Fj & Fr);
      [lia|lia|].
    destruct (fold_min T i n (mj1, mi1)) as [mj2 mi2]. cbn [fst snd] in *.
    split; [congruence|]. split; [congruence|]. split.
    { rewrite Fi, Hrow, seq_S, map_app, fold_left_app. reflexivity. }
    split.
    { intros k Hk. rewrite Fo by exact Hk. apply Hoth, Hk. }
    split.
    + intros j Hj. destruct (decide (j = n)) as [->|Hne].
      * rewrite Fj, Hrest by lia. reflexivity.
      * rewrite Fr by congruence. apply Hcol. lia.
    + intros j Hj. rewrite Fr by lia. apply Hrest. lia.
Qed.

(** Both loops: every row minimum and every column minimum. *)
Lemma scan_min_spec T S M n : forall mj mi,
  length mj = S -> length mi = M -> (n <= S)%nat ->
  let r := for_range n (fun i st => for_range M (fun j st => fold_min T i j st) st)
                     (mj, mi) in
  length (fst r) = S /\ length (snd r) = M /\
  (forall i, (i < n)%nat ->
     deref (fst r) i = fold_left dmin2 (map (fun j => T i j) (seq 0 M)) (deref mj i)) /\
  (forall i, (n <= i)%nat -> deref (fst r) i = deref mj i) /\
  (forall j, (j < M)%nat ->
     deref (snd r) j = fold_left dmin2 (map (fun i => T i j) (seq 0 n)) (deref mi j)).
Proof.
  intros mj mi Hmj Hmi. induction n as [|n IH]; intros Hn.
  - simpl. repeat split; try assumption; try reflexivity. intros; lia.
  - rewrite for_range_S.
    destruct IH as (L1 & L2 & Hrows & Hrest & Hcols); [lia|].
    destruct (for_range n _ (mj, mi)) as [mj1 mi1]. cbn [fst snd] in *.
    destruct (scan_row_spec T n M M mj1 mi1) as (R1 & R2 & Rrow & Roth & Rcol & _);
      [lia|exact L2|lia|].
    destruct (for_range M _ (mj1, mi1)) as [mj2 mi2]. cbn [fst snd] in *.
    split; [congruence|]. split; [congruence|]. split.
    { intros i Hi. destruct (decide (i = n)) as [->|Hne].
      - rewrite Rrow, Hrest by lia. reflexivity.
      - rewrite Roth by exact Hne. apply Hrows. lia. }
    split.
    { intros i Hi. rewrite Roth by lia. apply Hrest. lia. }
    intros j Hj. rewrite Rcol, Hcols by exact Hj.
    rewrite seq_S, map_app, fold_left_app. reflexivity.
Qed.

Lemma for_range_sum (f : nat -> double) n d :
  for_range n (fun i s => (s + f i)%D) d = fold_left add (map f (seq 0 n)) d.
Proof.
  unfold for_range. generalize (seq 0 n). intros l. revert d.
  induction l as [|x l IH]; intros d; simpl; [reflexivity|apply IH].
Qed.

(** ** The reduction, on the heap *)

Lemma store_loop_const (h : heap) l (c : list double) n v :
  h !! l = Some c -> length c = n ->
  for_range n (fun i h => store h l i v) h = <[l := replicate n v]> h.
Proof.
  intros Hl Hlen. rewrite <- (fill_const_replicate v n c Hlen).
  set (R := fun (h' : heap) (c' : list double) => h' = <[l := c']> h).
  assert (R0 : R h c) by (unfold R; symmetry; apply insert_id, Hl).
  apply (for_range_sim R); [exact R0|].
  intros i h1 c1 _ R1. unfold R in *. subst h1.
  rewrite (store_insert _ _ _ _ c1) by apply lookup_insert_eq.
  apply insert_insert_eq.
Qed.

Lemma scratch_j_fresh (h : heap) : h !! scratch_j h = None.
Proof. unfold scratch_j. apply not_elem_of_dom, is_fresh. Qed.

Lemma scratch_i_fresh (h : heap) : h !! scratch_i h = None.
Proof.
  apply not_elem_of_dom. intros H.
  apply (is_fresh (({[scratch_j h]} : gset nat) ∪ dom h)). apply elem_of_union_r, H.
Qed.

Lemma scratch_i_j (h : heap) : scratch_i h <> scratch_j h.
Proof.
  intros E. apply (is_fresh (({[scratch_j h]} : gset nat) ∪ dom h)).
  apply elem_of_union_l, elem_of_singleton. exact E.
Qed.

Lemma bmd_init_eq garbage (h : heap) static_size moving_size :
  bmd_init garbage h static_size moving_size =
  (<[scratch_i h := replicate (Z.to_nat moving_size) inf]>
     (<[scratch_j h := replicate (Z.to_nat static_size) inf]> h),
   scratch_j h, scratch_i h).
Proof.
  unfold bmd_init, malloc, alloc.
  fold (scratch_j h).
  set (S := Z.to_nat static_size). set (M := Z.to_nat moving_size).
  replace (fresh (dom (<[scratch_j h := map garbage (seq 0 S)]> h)))
    with (scratch_i h)
    by (unfold scratch_i; rewrite dom_insert_L; reflexivity).
  pose proof (scratch_i_j h) as Hij.
  rewrite (store_loop_const _ (scratch_j h) (map garbage (seq 0 S)) S).
  - rewrite (store_loop_const _ (scratch_i h) (map garbage (seq 0 M)) M).
    + f_equal. f_equal.
      rewrite insert_insert_ne by exact Hij.
      rewrite insert_insert_eq, insert_insert_ne by congruence.
      rewrite insert_insert_eq. reflexivity.
    + rewrite lookup_insert_ne by congruence. apply lookup_insert_eq.
    + rewrite length_map. apply length_seq.
  - rewrite lookup_insert_ne by exact Hij. apply lookup_insert_eq.
  - rewrite length_map. apply length_seq.
Qed.

(** The scan as one update of the two scratch arrays, when the two input
    arrays are buffers other than the scratch arrays. *)
Lemma bmd_scan_eq (h0 : heap) stat mov S M rows lj li mj mi :
  lj <> li -> nd_data stat <> lj -> nd_data stat <> li ->
  nd_data mov <> lj -> nd_data mov <> li ->
  let T := fun i j =>
    min_direct_flip_dist (row_ptr h0 stat (i * Z.to_nat rows))
                         (row_ptr h0 mov (j * Z.to_nat rows)) rows in
  bmd_scan stat mov (Z.of_nat S) (Z.of_nat M) rows lj li
           (<[li := mi]> (<[lj := mj]> h0)) =
  <[li := snd (scan_min S M T (mj, mi))]>
    (<[lj := fst (scan_min S M T (mj, mi))]> h0).
Proof.
  intros Hji Hsj Hsi Hmj Hmi T.
  unfold bmd_scan, scan_min. rewrite !Nat2Z.id.
  set (R := fun (h' : heap) (st : list double * list double) =>
              h' = <[li := snd st]> (<[lj := fst st]> h0)).
  assert (R0 : R (<[li := mi]> (<[lj := mj]> h0)) (mj, mi)) by reflexivity.
  apply (for_range_sim R); [exact R0|].
  intros i h1 st1 _ R1.
  apply (for_range_sim R); [exact R1|].
  intros j h2 [mj2 mi2] _ R2. unfold R in *. cbn [fst snd] in *. subst h2.
  unfold bmd_update, fold_min.
  rewrite !row_ptr_insert_ne by congruence. fold (T i j).
  assert (E1 : load (<[li := mi2]> (<[lj := mj2]> h0)) lj i = deref mj2 i).
  { unfold load. rewrite buffer_insert_ne, buffer_insert_eq by congruence.
    reflexivity. }
  rewrite E1. cbn [fst snd].
  destruct (T i j <? deref mj2 i)%D.
  - rewrite (store_insert _ lj _ _ mj2)
      by (rewrite lookup_insert_ne by congruence; apply lookup_insert_eq).
    rewrite (insert_insert_ne _ lj li) by exact Hji.
    rewrite insert_insert_eq.
    unfold load. rewrite buffer_insert_eq.
    destruct (T i j <? deref mi2 j)%D; [|reflexivity].
    rewrite (store_insert _ li _ _ mi2) by apply lookup_insert_eq.
    apply insert_insert_eq.
  - unfold load. rewrite buffer_insert_eq.
    destruct (T i j <? deref mi2 j)%D; [|reflexivity].
    rewrite (store_insert _ li _ _ mi2) by apply lookup_insert_eq.
    apply insert_insert_eq.
Qed.

Lemma bmd_finish_eq (h : heap) S M lj li mj mi :
  h !! lj = Some mj -> h !! li = Some mi ->
  snd (bmd_finish (Z.of_nat S) (Z.of_nat M) lj li h) =
  (let dist := (dsum (map (deref mj) (seq 0 S)) / of_int (Z.of_nat S)
                + dsum (map (deref mi) (seq 0 M)) / of_int (Z.of_nat M))%D in
   (quarter * dist * dist)%D).
Proof.
  intros Hj Hi. unfold bmd_finish. cbn [snd]. rewrite !Nat2Z.id.
  rewrite !for_range_sum. unfold load, buffer. rewrite Hj, Hi. reflexivity.
Qed.

Lemma ltb_not_nan x y : (x <? y)%D = true -> is_nan x = false.
Proof. destruct x; simpl; intros H; try reflexivity; discriminate. Qed.

Lemma min_direct_flip_dist_not_neg_rows a b rows :
  0 <= rows -> not_neg (min_direct_flip_dist a b rows) = true.
Proof.
  intros Hpos. unfold min_direct_flip_dist.
  pose proof (scan_not_neg a b (Z.to_nat rows)) as [Hd Hf].
  destruct (for_range _ _ _) as [d df]. cbn [fst snd] in Hd, Hf.
  pose proof (div_not_neg d _ Hd (of_int_pos rows Hpos)) as H1.
  pose proof (div_not_neg df _ Hf (of_int_pos rows Hpos)) as H2.
  cbv zeta. destruct (_ <=? _)%D; assumption.
Qed.

Lemma bmd_update_ok h0 lj li S M stat mov rows i j h :
  lj <> li -> 0 <= rows ->
  scratch_ok h0 lj li S M h ->
  scratch_ok h0 lj li S M (bmd_update stat mov rows lj li i j h).
Proof.
  intros Hji Hrows. unfold bmd_update.
  set (tmp := min_direct_flip_dist _ _ rows).
  assert (Htmp : not_neg tmp = true)
    by (apply min_direct_flip_dist_not_neg_rows, Hrows).
  clearbody tmp.
  assert (Hstep : forall l k h1,
            (l = lj \/ l = li) ->
            scratch_ok h0 lj li S M h1 ->
            scratch_ok h0 lj li S M
              (if (tmp <? load h1 l k)%D then store h1 l k tmp else h1)).
  { intros l k h1 Hl Hok. destruct (tmp <? load h1 l k)%D eqn:Hlt; [|exact Hok].
    assert (Hp : is_pos tmp = true).
    { apply ltb_not_nan in Hlt. unfold not_neg in Htmp. rewrite Hlt in Htmp.
      exact Htmp. }
    destruct Hok as (Hfr & mj & mi & Hj & Hi & Lj & Li & Pj & Pi).
    split.
    - intros l' H1 H2. rewrite store_lookup_ne by (destruct Hl; congruence).
      apply Hfr; assumption.
    - destruct Hl as [-> | ->].
      + exists (<[k := tmp]> mj), mi.
        rewrite (store_insert _ _ _ _ mj) by exact Hj.
        rewrite lookup_insert_eq, lookup_insert_ne, length_insert by congruence.
        repeat split; auto. apply Forall_insert; assumption.
      + exists mj, (<[k := tmp]> mi).
        rewrite (store_insert _ _ _ _ mi) by exact Hi.
        rewrite lookup_insert_eq, lookup_insert_ne, length_insert by congruence.
        repeat split; auto. apply Forall_insert; assumption. }
  intros Hok. apply Hstep; [right; reflexivity|].
  apply Hstep; [left; reflexivity|exact Hok].
Qed.

Lemma bmd_scan_ok h0 lj li S M stat mov static_size moving_size rows h :
  lj <> li -> 0 <= rows ->
  scratch_ok h0 lj li S M h ->
  scratch_ok h0 lj li S M
    (bmd_scan stat mov static_size moving_size rows lj li h).
Proof.
  intros Hji Hrows Hok. unfold bmd_scan.
  apply (for_range_inv (scratch_ok h0 lj li S M)); [exact Hok|].
  intros i h1 _ H1.
  apply (for_range_inv (scratch_ok h0 lj li S M)); [exact H1|].
  intros j h2 _ H2. apply bmd_update_ok; assumption.
Qed.

(** ** The sentinel *)


(** C5, as amended: before any pairwise distance is folded in, every
    element of the two scratch arrays holds [np.finfo('f8').max], the
    largest finite double, which the code uses in place of infinity. *)
Theorem bmd_init_sentinel garbage (h : heap) static_size moving_size :
  let st := bmd_init garbage h static_size moving_size in
  buffer (fst (fst st)) (snd (fst st)) = replicate (Z.to_nat static_size) finfo_max /\
  buffer (fst (fst st)) (snd st) = replicate (Z.to_nat moving_size) finfo_max /\
  is_finite finfo_max = true.
Proof.
  rewrite bmd_init_eq. cbn [fst snd].
  rewrite buffer_insert_eq, buffer_insert_ne, buffer_insert_eq
    by apply scratch_i_j.
  repeat split; reflexivity.
Qed.

(** ** Frame *)

Lemma bmd_scan_frame stat mov static_size moving_size rows lj li (h : heap) l :
  l <> lj -> l <> li ->
  bmd_scan stat mov static_size moving_size rows lj li h !! l = h !! l.
Proof.
  intros Hj Hi. unfold bmd_scan.
  apply (for_range_inv (fun h' : heap => h' !! l = h !! l)); [reflexivity|].
  intros i h1 _ H1.
  apply (for_range_inv (fun h' : heap => h' !! l = h !! l)); [exact H1|].
  intros j h2 _ H2. unfold bmd_update.
  repeat match goal with
         | |- context [if ?c then _ else _] => destruct c
         end;
    rewrite ?store_lookup_ne by congruence; exact H2.
Qed.

Lemma bundle_minimum_distance_frame garbage (h : heap) stat mov
    static_size moving_size rows :
  fst (_bundle_minimum_distance garbage h stat mov static_size moving_size rows) = h.
Proof.
  unfold _bundle_minimum_distance. rewrite bmd_init_eq.
  unfold bmd_finish, free. cbn [fst].
  pose proof (scratch_j_fresh h) as Fj. pose proof (scratch_i_fresh h) as Fi.
  apply map_eq. intros l.
  destruct (decide (l = scratch_i h)) as [->|Hi].
  { rewrite lookup_delete_eq. symmetry. exact Fi. }
  rewrite lookup_delete_ne by congruence.
  destruct (decide (l = scratch_j h)) as [->|Hj].
  { rewrite lookup_delete_eq. symmetry. exact Fj. }
  rewrite lookup_delete_ne by congruence.
  rewrite bmd_scan_frame by assumption.
  rewrite !lookup_insert_ne by congruence. reflexivity.
Qed.

(** C9: no operation writes into a buffer it was handed to read.
    [_bundle_minimum_distance] leaves the whole heap as it found it (its
    scratch arrays are new and are released); [distance_matrix_mdf] only
    adds buffers (the matrix, the copies it normalises into) and every
    buffer that existed keeps its cells; the loops of
    [_bundle_minimum_distance_matrix] write the buffer of [D] and no other.
    [min_direct_flip_dist] itself returns a number and has no heap to
    write. *)
Theorem input_geometry_unchanged :
  (forall garbage (h : heap) stat mov static_size moving_size rows,
     fst (_bundle_minimum_distance garbage h stat mov static_size moving_size rows) = h)
  /\
  (forall w A B (l : loc) (cells : list double),
     w_heap w !! l = Some cells ->
     w_heap (fst (distance_matrix_mdf w A B)) !! l = Some cells)
  /\
  (forall (h : heap) static moving static_size moving_size rows D (l : loc),
     l <> nd_data D ->
     _bundle_minimum_distance_matrix h static moving static_size moving_size rows D !! l
     = h !! l).
Proof.
  split; [|split].
  - apply bundle_minimum_distance_frame.
  - intros w A B l cells Hl.
    eapply lookup_weaken; [exact Hl|apply distance_matrix_mdf_frame].
  - intros. apply matrix_loops_frame. assumption.
Qed.

(** ** Matrix and reduction agree *)




Lemma is_Some_not_fresh (h : heap) l (X : gset nat) :
  is_Some (h !! l) -> dom h ⊆ X -> l <> fresh X.
Proof.
  intros Hl Hsub E. apply (is_fresh X). rewrite <- E.
  apply Hsub, elem_of_dom, Hl.
Qed.


(** ** The unguarded divisions *)

Lemma mul_pos_finite x m e :
  is_pos x = true -> is_pos (x * S754_finite false m e)%D = true.
Proof.
  destruct x as [[]|[]| |[] mx ex]; intros H; try discriminate H;
    try reflexivity.
  unfold mul, SFmul. apply (bra_sign false). lia.
Qed.

Lemma quarter_square_pos d :
  is_pos d = true -> is_pos (quarter * d * d)%D = true.
Proof.
  destruct d as [[]|[]| |[] m e]; intros H; try discriminate H;
    try reflexivity.
  apply mul_pos_finite. unfold quarter, mul, SFmul. apply (bra_sign false). lia.
Qed.

Lemma map_deref_seq (l : list double) : map (deref l) (seq 0 (length l)) = l.
Proof.
  apply list_eq. intros i.
  change (map (deref l) (seq 0 (length l))) with (deref l <$> seq 0 (length l)).
  rewrite list_lookup_fmap.
  destruct (decide (i < length l)%nat) as [Hi|Hi].
  - rewrite lookup_seq_lt by exact Hi. simpl. unfold deref.
    destruct (lookup_lt_is_Some_2 l i Hi) as [x ->]. reflexivity.
  - rewrite lookup_seq_ge by lia. rewrite lookup_ge_None_2 by lia. reflexivity.
Qed.

Lemma bundle_minimum_distance_pos garbage (h : heap) stat mov (S M : nat) rows :
  1 <= Z.of_nat S < 2 ^ 63 -> 1 <= Z.of_nat M < 2 ^ 63 -> 0 <= rows ->
  is_pos (snd (_bundle_minimum_distance garbage h stat mov
                 (Z.of_nat S) (Z.of_nat M) rows)) = true.
Proof.
  intros HS HM Hrows. unfold _bundle_minimum_distance.
  rewrite bmd_init_eq, !Nat2Z.id.
  pose proof (scratch_i_j h) as Nij.
  set (lj := scratch_j h) in *. set (li := scratch_i h) in *.
  assert (H0 : scratch_ok h lj li S M
                 (<[li := replicate M inf]> (<[lj := replicate S inf]> h))).
  { split.
    - intros l Hj Hi. rewrite !lookup_insert_ne by congruence. reflexivity.
    - exists (replicate S inf), (replicate M inf).
      rewrite lookup_insert_ne, !lookup_insert_eq, !length_replicate by congruence.
      repeat split; apply Forall_replicate; reflexivity. }
  apply (bmd_scan_ok h lj li S M stat mov (Z.of_nat S) (Z.of_nat M) rows) in H0;
    [|congruence|exact Hrows].
  destruct H0 as (_ & mj & mi & Hj & Hi & Lj & Li & Pj & Pi).
  rewrite (bmd_finish_eq _ S M lj li mj mi Hj Hi). cbv zeta.
  destruct (of_int_finite _ HS) as (m1 & e1 & ->).
  destruct (of_int_finite _ HM) as (m2 & e2 & ->).
  apply quarter_square_pos, add_pos; apply (div_by_finite false false);
    apply fold_add_pos; try reflexivity.
  - rewrite <- Lj, map_deref_seq. exact Pj.
  - rewrite <- Li, map_deref_seq. exact Pi.
Qed.

Lemma bundle_minimum_distance_empty_static garbage (h : heap) stat mov moving_size rows :
  snd (_bundle_minimum_distance garbage h stat mov 0 moving_size rows) = nan.
Proof.
  unfold _bundle_minimum_distance.
  destruct (bmd_init garbage h 0 moving_size) as [[h1 lj] li].
  reflexivity.
Qed.

Lemma bundle_minimum_distance_empty_moving garbage (h : heap) stat mov static_size rows :
  snd (_bundle_minimum_distance garbage h stat mov static_size 0 rows) = nan.
Proof.
  unfold _bundle_minimum_distance.
  destruct (bmd_init garbage h static_size 0) as [[h1 lj] li].
  unfold bmd_finish. cbn [snd].
  change (for_range (Z.to_nat 0) ?f zero / of_int 0)%D with nan.
  rewrite add_nan_r. reflexivity.
Qed.

(** C10, as amended: none of the three divisions is guarded.  With
    [rows], [static_size] and [moving_size] at least 1 the divisor is a
    finite non-zero double, the distance of two streamlines with finite
    coordinates is not NaN and not negative, and so is the bundle distance
    (either may still be [+infinity] when the arithmetic overflows).  With
    [rows = 0] the distance is the NaN of [0/0], and with an empty static
    or moving set the bundle distance is NaN; nothing is raised. *)
Theorem unguarded_divisions :
  (forall n, 1 <= n < 2 ^ 63 -> exists m e, of_int n = S754_finite false m e)
  /\
  (forall (sa sb : streamline) (ra rb : list double) (rows : Z),
     1 <= rows < 2 ^ 63 ->
     Z.of_nat (length sa) = rows -> Z.of_nat (length sb) = rows ->
     finite_streamline sa = true -> finite_streamline sb = true ->
     is_pos (min_direct_flip_dist (flat sa ++ ra) (flat sb ++ rb) rows) = true)
  /\
  (forall garbage (h : heap) stat mov static_size moving_size rows,
     1 <= static_size < 2 ^ 63 -> 1 <= moving_size < 2 ^ 63 -> 0 <= rows ->
     is_pos (snd (_bundle_minimum_distance garbage h stat mov
                    static_size moving_size rows)) = true)
  /\
  (forall a b : ptr, min_direct_flip_dist a b 0 = nan)
  /\
  (forall garbage (h : heap) stat mov moving_size rows,
     snd (_bundle_minimum_distance garbage h stat mov 0 moving_size rows) = nan)
  /\
  (forall garbage (h : heap) stat mov static_size rows,
     snd (_bundle_minimum_distance garbage h stat mov static_size 0 rows) = nan).
Proof.
  split; [exact of_int_finite|].
  split.
  { intros sa sb ra rb rows Hr Ha Hb Fa Fb.
    rewrite (min_direct_flip_dist_spec sa sb ra rb rows Ha Hb).
    apply pair_distance_spec_pos; auto; lia. }
  split.
  { intros garbage h stat mov static_size moving_size rows HS HM Hrows.
    rewrite <- (Z2Nat.id static_size), <- (Z2Nat.id moving_size) by lia.
    apply bundle_minimum_distance_pos; rewrite ?Z2Nat.id; lia. }
  split; [reflexivity|].
  split.
  - apply bundle_minimum_distance_empty_static.
  - apply bundle_minimum_distance_empty_moving.
Qed.

(** ** The claims on sample data *)

(** The scenarios of the specification: a line against itself, and a line
    against its reversal, whose direct mean is 1. *)
Example line3_self : min_direct_flip_dist (flat line3) (flat line3) 3 = zero.
Proof. vm_compute. reflexivity. Qed.

Example line2_reversed :
  min_direct_flip_dist (flat line2) (flat (reverse line2)) 2 = zero /\
  direct_mean line2 (reverse line2) = of_int 1.
Proof. vm_compute. split; reflexivity. Qed.

Lemma min_direct_flip_dist_is_min_of_means_witness :
  min_direct_flip_dist (flat line2 ++ []) (flat (reverse line2) ++ []) 2
  = pair_distance_spec line2 (reverse line2).
Proof.
  apply (min_direct_flip_dist_is_min_of_means line2 (reverse line2) [] [] 2);
    reflexivity.
Defined.


Lemma distance_matrix_cells_witness :
  load2 (_bundle_minimum_distance_matrix sample_heap
           (array2 0 6 3) (array2 1 3 3) (Z.of_nat 2) (Z.of_nat 1) (Z.of_nat 3)
           (array2 2 2 1))
        (array2 2 2 1) 1 0
  = min_direct_flip_dist (flat line3_up) (flat line3) (Z.of_nat 3).
Proof.
  apply (proj1 distance_matrix_cells sample_heap (array2 0 6 3) (array2 1 3 3)
           (array2 2 2 1) [line3; line3_up] [line3] 3%nat [nan; nan]).
  - repeat split; try reflexivity. repeat constructor.
  - repeat split; try reflexivity. repeat constructor.
  - discriminate.
  - discriminate.
  - reflexivity.
  - reflexivity.
  - reflexivity.
  - reflexivity.
  - reflexivity.
Defined.

(** C4 fails as stated: on a 10-point against a 12-point streamline the
    error is raised, and by then the output matrix exists at a location
    that was free before the call. *)
Lemma shape_mismatch_raised_after_allocation :
  let r := distance_matrix_mdf mismatch_world [array2 0 10 3] [array2 1 12 3] in
  snd r = inl ValueError /\
  w_heap mismatch_world !! 2%nat = None /\
  w_heap (fst r) !! 2%nat = Some [zero] /\
  w_log (fst r) = [Alloc_objects 1; Alloc_objects 1; Alloc_matrix 1 1].
Proof. vm_compute. repeat split; reflexivity. Qed.

Lemma distance_matrix_mdf_shape_mismatch_witness :
  snd (distance_matrix_mdf mismatch_world [array2 0 10 3] [array2 1 12 3])
  = inl ValueError.
Proof.
  apply (distance_matrix_mdf_shape_mismatch mismatch_world
           [array2 0 10 3] [array2 1 12 3] (array2 0 10 3) (array2 1 12 3));
    [reflexivity|reflexivity|discriminate].
Defined.

(** C5 fails as stated: the first element of a scratch array after the
    initialisation is the finite [np.finfo('f8').max], not [+infinity]. *)
Lemma scratch_sentinel_is_not_infinity :
  let st := bmd_init (fun _ => nan) ∅ 1 1 in
  load (fst (fst st)) (snd (fst st)) 0 = finfo_max /\
  load (fst (fst st)) (snd (fst st)) 0 <> pinf.
Proof. vm_compute. split; [reflexivity|discriminate]. Qed.

(** C6 fails as stated: with no point, or with a NaN coordinate, the
    distance is NaN, and NaN is not at least zero. *)
Lemma nonnegativity_fails_on_nan :
  (zero <=? min_direct_flip_dist [] [] 0)%D = false /\
  (zero <=? min_direct_flip_dist [nan; zero; zero] (flat [origin]) 1)%D = false.
Proof. vm_compute. split; reflexivity. Qed.

Lemma min_direct_flip_dist_nonneg_or_nan_witness :
  (zero <=? min_direct_flip_dist (flat line3 ++ []) (flat line3_up ++ []) 3)%D = true.
Proof.
  apply (proj1 (proj2 min_direct_flip_dist_nonneg_or_nan) line3 line3_up [] [] 3);
    try reflexivity. lia.
Defined.

(** C7 fails as stated: with no point, or with an infinite coordinate, a
    streamline and its reversal are at distance NaN. *)
Lemma reversal_fails_on_empty_and_infinite :
  min_direct_flip_dist (flat []) (flat (reverse [])) 0 = nan /\
  min_direct_flip_dist (flat [(pinf, zero, zero)])
                       (flat (reverse [(pinf, zero, zero)])) 1 = nan /\
  SFeqb nan zero = false.
Proof. vm_compute. repeat split; reflexivity. Qed.

Lemma min_direct_flip_dist_reversal_witness :
  min_direct_flip_dist (flat line3 ++ []) (flat (reverse line3) ++ []) 3 = zero.
Proof.
  apply (min_direct_flip_dist_reversal line3 [] [] 3); try reflexivity. lia.
Defined.

(** C8 fails as stated: the points 0.1, 0.2, 0.3 on the x axis against
    three points at the origin.  The flipped sum is [(0.1 + 0.2) + 0.3] one
    way and [(0.3 + 0.2) + 0.1] the other way, and the two differ. *)
Lemma exchange_changes_the_distance :
  min_direct_flip_dist (flat tenths) (flat origin3) 3 <>
  min_direct_flip_dist (flat origin3) (flat tenths) 3.
Proof. vm_compute. discriminate. Qed.

Lemma min_direct_flip_dist_exchange_witness :
  min_direct_flip_dist (flat (reverse line2) ++ []) (flat line2 ++ []) 2 =
  min_direct_flip_dist (flat line2 ++ []) (flat (reverse line2) ++ []) 2.
Proof.
  apply (min_direct_flip_dist_exchange line2 (reverse line2) [] [] [] [] 2);
    try reflexivity; lia.
Defined.

Lemma input_geometry_unchanged_witness :
  w_heap (fst (distance_matrix_mdf sample_world
                 [array2 0 3 3; strided 1 3 3] [array2 0 3 3])) !! 1%nat
  = Some (flat line3_up).
Proof.
  apply (proj1 (proj2 input_geometry_unchanged)). reflexivity.
Defined.

(** C10 fails as stated: one point at x = 10^200 against the origin, with
    [rows = 1]: the coordinates are finite and the distance is
    [+infinity]. *)
Lemma distance_overflows_to_infinity :
  finite_streamline [pt (10 ^ 200) 0 0] = true /\
  min_direct_flip_dist (flat [pt (10 ^ 200) 0 0]) (flat [origin]) 1 = pinf /\
  is_finite pinf = false.
Proof. vm_compute. repeat split; reflexivity. Qed.

Lemma unguarded_divisions_witness :
  is_pos (snd (_bundle_minimum_distance (fun _ => nan) sample_heap
                 (array2 0 6 3) (array2 1 3 3) 2 1 3)) = true.
Proof.
  apply (proj1 (proj2 (proj2 unguarded_divisions))); lia.
Defined.

(** * Further properties of the four functions *)

(** ** What [min_direct_flip_dist] reads *)

Lemma take_deref (a a' : list double) n k :
  take n a = take n a' -> (k < n)%nat -> deref a k = deref a' k.
Proof.
  intros H Hk. unfold deref.
  rewrite <- (lookup_take_lt a n k), <- (lookup_take_lt a' n k) by exact Hk.
  rewrite H. reflexivity.
Qed.

Lemma coord_body_local a a' b b' r i j acc :
  take (3 * r) a = take (3 * r) a' -> take (3 * r) b = take (3 * r) b' ->
  (i < r)%nat -> (j < 3)%nat ->
  coord_body a b r i j acc = coord_body a' b' r i j acc.
Proof.
  intros Ha Hb Hi Hj. unfold coord_body. destruct acc as [t tf].
  rewrite (take_deref a a' (3 * r) (i * 3 + j) Ha) by lia.
  rewrite (take_deref b b' (3 * r) (i * 3 + j) Hb) by lia.
  rewrite (take_deref b b' (3 * r) ((r - 1 - i) * 3 + j) Hb) by lia.
  reflexivity.
Qed.

(** X1: [min_direct_flip_dist] reads the first [3 * rows] cells of each
    pointer and nothing else: two calls whose pointers agree on those
    cells return the same number, whatever lies behind. *)
Theorem min_direct_flip_dist_reads_3rows (a a' b b' : ptr) (rows : Z) :
  take (3 * Z.to_nat rows) a = take (3 * Z.to_nat rows) a' ->
  take (3 * Z.to_nat rows) b = take (3 * Z.to_nat rows) b' ->
  min_direct_flip_dist a b rows = min_direct_flip_dist a' b' rows.
Proof.
  intros Ha Hb. unfold min_direct_flip_dist.
  rewrite (for_range_ext _ (point_body a b (Z.to_nat rows))
                           (point_body a' b' (Z.to_nat rows))); [reflexivity|].
  intros i [d df] Hi. unfold point_body.
  rewrite (for_range_ext 3 (coord_body a b (Z.to_nat rows) i)
                           (coord_body a' b' (Z.to_nat rows) i)); [reflexivity|].
  intros j acc Hj. apply coord_body_local; assumption.
Qed.

Lemma min_direct_flip_dist_reads_3rows_witness :
  min_direct_flip_dist (flat line2 ++ [nan]) (flat line2 ++ [pinf; pinf]) 2 =
  min_direct_flip_dist (flat line2) (flat line2 ++ [zero]) 2.
Proof.
  apply min_direct_flip_dist_reads_3rows; reflexivity.
Defined.

(** ** A point count that is not positive *)

Lemma binary_round_finite s p :
  Zpos p < 2 ^ 64 ->
  exists m e, binary_round prec emax s p 0 = S754_finite s m e.
Proof.
  intros Hhi. unfold binary_round.
  pose proof (digits2_pos_bounds p) as [Hl Hh].
  set (d := Zpos (digits2_pos p)) in *.
  assert (Hd : 1 <= d <= 64).
  { split; [subst d; lia|].
    destruct (Z_le_gt_dec d 64) as [H|H]; [exact H|].
    assert (2 ^ 64 <= 2 ^ (d - 1)) by (apply Z.pow_le_mono_r; lia). lia. }
  unfold shl_align, fexp.
  replace (Z.max (d + 0 - prec) (emin prec emax) - 0) with (d - prec)
    by (unfold emin, prec, emax; lia).
  destruct (d - prec) as [|q|q] eqn:Eq;
    apply bra_finite; simpl; rewrite ?digits2_pos_iter_xO; fold d;
    unfold emin, prec, emax in *; lia.
Qed.

(** X2: with a point count that is not positive the loop body never runs
    and no cell is read: the result is the NaN of [0/0] for [rows = 0] and
    [-0.0], a zero divided by a negative number, for a negative [rows],
    whatever the two pointers are. *)
Theorem min_direct_flip_dist_no_points (a b : ptr) (rows : Z) :
  - 2 ^ 63 <= rows <= 0 ->
  min_direct_flip_dist a b rows = if rows =? 0 then nan else S754_zero true.
Proof.
  intros Hr. destruct rows as [|p|p]; try lia; [reflexivity|].
  unfold min_direct_flip_dist.
  change (Z.to_nat (Zneg p)) with 0%nat.
  change (for_range 0 (point_body a b 0) (zero, zero)) with (zero, zero).
  cbv beta iota zeta.
  destruct (binary_round_finite true p) as (m & e & E); [lia|].
  change (of_int (Zneg p)) with (binary_round prec emax true p 0).
  rewrite E. reflexivity.
Qed.

Lemma min_direct_flip_dist_no_points_witness :
  min_direct_flip_dist (flat line3) [] (-4) = S754_zero true.
Proof.
  apply (min_direct_flip_dist_no_points (flat line3) [] (-4)). lia.
Defined.

(** ** A streamline against itself *)

Lemma self_distance_zero
    (sa : streamline) (ra rb : list double) (rows : Z) :
  1 <= rows < 2 ^ 63 -> Z.of_nat (length sa) = rows ->
  finite_streamline sa = true ->
  min_direct_flip_dist (flat sa ++ ra) (flat sa ++ rb) rows = zero.
Proof.
  intros Hr Ha Fa.
  rewrite (min_direct_flip_dist_spec sa sa ra rb rows Ha Ha).
  assert (Hd : direct_mean sa sa = zero).
  { apply dmean_zeros.
    - rewrite length_zip_with. lia.
    - apply Forall_zip_with_lookup. intros i p q Hp Hq.
      rewrite Hp in Hq. injection Hq as <-.
      apply euclid_self, (finite_streamline_lookup sa i p Fa Hp). }
  unfold pair_distance_spec. rewrite Hd.
  rewrite is_pos_leb_zero; [reflexivity|].
  apply flipped_mean_pos; auto; lia.
Qed.

(** X3: a streamline of at least one point whose coordinates are all
    finite numbers is at distance [+0] from itself (through the direct
    mean, which is zero), and so the distance matrix of a set of such
    streamlines against itself has [+0] on its diagonal. *)
Theorem min_direct_flip_dist_self :
  (forall (sa : streamline) (ra rb : list double) (rows : Z),
     1 <= rows < 2 ^ 63 -> Z.of_nat (length sa) = rows ->
     finite_streamline sa = true ->
     min_direct_flip_dist (flat sa ++ ra) (flat sa ++ rb) rows = zero) /\
  (forall (h : heap) stat D (set : list streamline) (rows : nat)
          (cells : list double) (i : nat),
     holds_set h stat set rows -> 1 <= Z.of_nat rows < 2 ^ 63 ->
     Forall (fun s => finite_streamline s = true) set ->
     nd_data D <> nd_data stat -> nd_shape1 D = length set ->
     h !! nd_data D = Some cells ->
     length cells = (length set * length set)%nat ->
     (i < length set)%nat ->
     load2 (_bundle_minimum_distance_matrix h stat stat
              (Z.of_nat (length set)) (Z.of_nat (length set)) (Z.of_nat rows) D)
           D i i = zero).
Proof.
  split; [exact self_distance_zero|].
  intros h stat D set rows cells i Hset Hrows Hfin Dn Dc Hc Hlen Hi.
  destruct (lookup_lt_is_Some_2 set i Hi) as [s Hs].
  destruct (matrix_path_cells h stat stat D set set rows cells
              Hset Hset Dn Dn Dc Hc Hlen) as [_ Hcell].
  rewrite (Hcell i i s s Hs Hs).
  destruct Hset as (_ & _ & Hall).
  pose proof (Forall_lookup_1 _ _ _ _ Hall Hs) as Ls.
  pose proof (Forall_lookup_1 _ _ _ _ Hfin Hs) as Fs.
  simpl in Ls, Fs.
  pose proof (self_distance_zero s [] [] (Z.of_nat rows) Hrows) as E.
  rewrite !app_nil_r in E. apply E; [lia|exact Fs].
Qed.

Lemma min_direct_flip_dist_self_witness :
  min_direct_flip_dist (flat line3_up ++ []) (flat line3_up ++ []) 3 = zero.
Proof.
  apply (proj1 min_direct_flip_dist_self line3_up [] [] 3); try reflexivity; lia.
Defined.

(** ** The outcomes of [distance_matrix_mdf] *)

Lemma normalize_fold_length streamlines : forall w acc,
  length (snd (fold_left normalize_step streamlines (w, acc))) =
  (length acc + length streamlines)%nat.
Proof.
  induction streamlines as [|a l IH]; intros w acc; simpl; [lia|].
  destruct (np_ascontiguousarray w a) as [w1 a64].
  rewrite IH, length_app. simpl. lia.
Qed.

Lemma normalize_length w streamlines :
  length (snd (normalize w streamlines)) = length streamlines.
Proof. apply (normalize_fold_length streamlines w []). Qed.

Lemma np_ascontiguousarray_log w a :
  w_log (fst (np_ascontiguousarray w a)) = w_log w ++ copies [a].
Proof.
  unfold np_ascontiguousarray, copies. simpl.
  destruct (nd_contig a); simpl; [rewrite app_nil_r|]; reflexivity.
Qed.

Lemma copies_cons a l : copies (a :: l) = copies [a] ++ copies l.
Proof. unfold copies. simpl. destruct (nd_contig a); reflexivity. Qed.

Lemma normalize_fold_log streamlines : forall w acc,
  w_log (fst (fold_left normalize_step streamlines (w, acc))) =
  w_log w ++ copies streamlines.
Proof.
  induction streamlines as [|a l IH]; intros w acc; simpl.
  - rewrite app_nil_r. reflexivity.
  - pose proof (np_ascontiguousarray_log w a) as H1.
    destruct (np_ascontiguousarray w a) as [w1 a64]. simpl in H1.
    rewrite IH, H1, (copies_cons a l), <- app_assoc. reflexivity.
Qed.

Lemma fill_row_log (t1 : ndarray) tracksB64 t_len DM i n : forall w,
  (n <= length tracksB64)%nat ->
  w_log (for_range n (fun j w =>
           match tracksB64 !! j with
           | None => w
           | Some t2 =>
             {| w_heap := store2 (w_heap w) DM i j
                            (min_direct_flip_dist (data_ptr (w_heap w) t1)
                               (data_ptr (w_heap w) t2) t_len);
                w_log := w_log w ++ [Distance_call i j] |}
           end) w) =
  w_log w ++ map (fun j => Distance_call i j) (seq 0 n).
Proof.
  intros w. induction n as [|n IH]; intros Hn.
  - simpl. rewrite app_nil_r. reflexivity.
  - rewrite for_range_S.
    destruct (lookup_lt_is_Some_2 tracksB64 n ltac:(lia)) as [t2 ->].
    cbn [w_log]. rewrite IH by lia.
    rewrite seq_S, map_app, <- app_assoc. reflexivity.
Qed.

Lemma fill_matrix_log tracksA64 tracksB64 t_len DM w :
  w_log (fill_matrix tracksA64 tracksB64 t_len DM w) =
  w_log w ++ calls (length tracksA64) (length tracksB64).
Proof.
  unfold fill_matrix, calls.
  assert (H : forall n, (n <= length tracksA64)%nat ->
    w_log (for_range n (fun i w =>
             match tracksA64 !! i with
             | None => w
             | Some t1 =>
               for_range (length tracksB64) (fun j w =>
                 match tracksB64 !! j with
                 | None => w
                 | Some t2 =>
                   {| w_heap := store2 (w_heap w) DM i j
                                  (min_direct_flip_dist (data_ptr (w_heap w) t1)
                                     (data_ptr (w_heap w) t2) t_len);
                      w_log := w_log w ++ [Distance_call i j] |}
                 end) w
             end) w) =
    w_log w ++ flat_map (fun i => map (fun j => Distance_call i j)
                                      (seq 0 (length tracksB64))) (seq 0 n)).
  { induction n as [|n IH]; intros Hn.
    - simpl. rewrite app_nil_r. reflexivity.
    - rewrite for_range_S.
      destruct (lookup_lt_is_Some_2 tracksA64 n ltac:(lia)) as [t1 ->].
      rewrite fill_row_log by lia. rewrite IH by lia.
      rewrite seq_S, flat_map_app, <- app_assoc. simpl.
      rewrite app_nil_r. reflexivity. }
  apply H. lia.
Qed.

(** X4: on built-in lists, the outcome of [distance_matrix_mdf] is
    decided by the two first elements alone.  When either list is empty
    the read of its element 0 is unchecked and the call is undefined (no
    [IndexError] is raised); when the first elements differ in their
    point counts it raises [ValueError]; otherwise it returns a new
    matrix of [len(streamlines_a)] rows and [len(streamlines_b)] columns.
    The point counts of the other elements are never looked at. *)
Theorem distance_matrix_mdf_outcome w A B :
  snd (distance_matrix_mdf w A B) =
  match A !! 0%nat, B !! 0%nat with
  | Some a0, Some b0 =>
    if (nd_shape0 a0 =? nd_shape0 b0)%nat
    then inr {| nd_data := fresh (dom (w_heap w));
                nd_shape0 := length A; nd_shape1 := length B;
                nd_contig := true |}
    else inl ValueError
  | _, _ => inl Undefined
  end.
Proof.
  unfold distance_matrix_mdf, np_zeros, alloc. cbn [w_heap w_log emit].
  destruct (A !! 0%nat) as [a0|] eqn:HA; [|reflexivity].
  destruct (B !! 0%nat) as [b0|] eqn:HB; [|reflexivity].
  destruct (nd_shape0 a0 =? nd_shape0 b0)%nat; [|reflexivity].
  cbn [negb].
  set (w1 := {| w_heap := _; w_log := _ |}).
  pose proof (normalize_length w1 A) as LA.
  destruct (normalize w1 A) as [w2 tracksA64]. cbn [snd] in LA.
  destruct (normalize w2 B) as [w3 tracksB64].
  apply lookup_lt_Some in HA.
  destruct (lookup_lt_is_Some_2 tracksA64 0%nat ltac:(lia)) as [t0 ->].
  reflexivity.
Qed.

(** X5: a successful [distance_matrix_mdf] creates the two object arrays
    and the matrix, copies exactly the arrays that are not already
    C-contiguous float64 (first those of [streamlines_a], then those of
    [streamlines_b], none when all are), and then computes the distance of
    every pair [(i, j)] exactly once, row by row. *)
Theorem distance_matrix_mdf_log w A B a0 b0 :
  A !! 0%nat = Some a0 -> B !! 0%nat = Some b0 ->
  nd_shape0 a0 = nd_shape0 b0 ->
  w_log (fst (distance_matrix_mdf w A B)) =
  w_log w
  ++ [Alloc_objects (length A); Alloc_objects (length B);
      Alloc_matrix (length A) (length B)]
  ++ copies A ++ copies B ++ calls (length A) (length B).
Proof.
  intros HA HB Hshape.
  unfold distance_matrix_mdf, np_zeros, alloc. cbn [w_heap w_log emit].
  rewrite HA, HB.
  replace (nd_shape0 a0 =? nd_shape0 b0)%nat with true
    by (symmetry; apply Nat.eqb_eq, Hshape).
  cbn [negb].
  set (w1 := {| w_heap := _; w_log := _ |}).
  pose proof (normalize_length w1 A) as LA.
  pose proof (normalize_fold_log A w1 []) as GA.
  fold (normalize w1 A) in GA.
  destruct (normalize w1 A) as [w2 tracksA64]. cbn [fst snd] in LA, GA.
  pose proof (normalize_length w2 B) as LB.
  pose proof (normalize_fold_log B w2 []) as GB.
  fold (normalize w2 B) in GB.
  destruct (normalize w2 B) as [w3 tracksB64]. cbn [fst snd] in LB, GB.
  apply lookup_lt_Some in HA.
  destruct (lookup_lt_is_Some_2 tracksA64 0%nat ltac:(lia)) as [t0 ->].
  cbn [fst]. rewrite fill_matrix_log, GB, GA, LA, LB.
  unfold w1. cbn [w_log]. rewrite <- !app_assoc. reflexivity.
Qed.

Lemma distance_matrix_mdf_log_witness :
  w_log (fst (distance_matrix_mdf sample_world
                [array2 0 3 3; strided 1 3 3] [array2 0 3 3])) =
  [Alloc_objects 2; Alloc_objects 1; Alloc_matrix 2 1; Copy_array 1;
   Distance_call 0 0; Distance_call 1 0].
Proof.
  apply (distance_matrix_mdf_log sample_world
           [array2 0 3 3; strided 1 3 3] [array2 0 3 3]
           (array2 0 3 3) (array2 0 3 3)); reflexivity.
Defined.

(** ** The order of the doubles *)

Lemma leb_true_not_nan x y :
  (x <=? y)%D = true -> is_nan x = false /\ is_nan y = false.
Proof.
  unfold leb, SFleb.
  destruct x as [[]|[]| |[] mx ex], y as [[]|[]| |[] my ey];
    simpl; intros H; try discriminate H; split; reflexivity.
Qed.

Lemma leb_rank x y :
  is_nan x = false -> is_nan y = false ->
  ((x <=? y)%D = true <-> lex_le (rank x) (rank y)).
Proof.
  unfold leb, SFleb.
  destruct x as [[]|[]| |[] mx ex], y as [[]|[]| |[] my ey];
    intros Hx Hy; try discriminate Hx; try discriminate Hy;
    unfold SFcompare, rank, lex_le;
    try (split; [intros Hq; try discriminate Hq; lia
                |intros Hq; try reflexivity; exfalso; lia]);
    change (Pos.compare_cont Eq mx my) with (mx ?= my)%positive;
    destruct (Z.compare_spec ex ey); destruct (Pos.compare_spec mx my);
    simpl;
    (split; [intros Hq; try discriminate Hq; lia
            |intros Hq; try reflexivity; exfalso; lia]).
Qed.

Lemma leb_trans x y z :
  (x <=? y)%D = true -> (y <=? z)%D = true -> (x <=? z)%D = true.
Proof.
  intros Hxy Hyz.
  destruct (leb_true_not_nan _ _ Hxy) as [Nx Ny].
  destruct (leb_true_not_nan _ _ Hyz) as [_ Nz].
  apply (leb_rank x y Nx Ny) in Hxy. apply (leb_rank y z Ny Nz) in Hyz.
  apply (leb_rank x z Nx Nz).
  destruct (rank x) as [[a1 b1] c1], (rank y) as [[a2 b2] c2],
           (rank z) as [[a3 b3] c3].
  unfold lex_le in *. lia.
Qed.

Lemma ltb_leb x y : (x <? y)%D = true -> (x <=? y)%D = true.
Proof.
  unfold ltb, leb, SFltb, SFleb. destruct (SFcompare x y) as [[]|]; congruence.
Qed.

Lemma not_ltb_leb x y :
  is_nan x = false -> is_nan y = false ->
  (x <? y)%D = false -> (y <=? x)%D = true.
Proof.
  intros Hx Hy. unfold ltb, leb, SFltb, SFleb. rewrite (SFcompare_swap x y).
  destruct (compare_not_nan x y Hx Hy) as [c ->].
  destruct c; simpl; congruence.
Qed.

(** ** The running minimum *)

(** What the repeated [if tmp < m: m = tmp] leaves in [m]: its first value
    or one of the values met, below the first value and below every value
    met that is not NaN. *)
Lemma fold_dmin2_spec l : forall acc,
  is_nan acc = false ->
  let r := fold_left dmin2 l acc in
  (r = acc \/ In r l) /\
  (r <=? acc)%D = true /\
  (forall x, In x l -> is_nan x = false -> (r <=? x)%D = true).
Proof.
  induction l as [|t l IH]; intros acc Hacc; simpl.
  - split; [left; reflexivity|]. split; [apply leb_refl, Hacc|]. tauto.
  - assert (Hstep : is_nan (dmin2 acc t) = false /\
                    (dmin2 acc t <=? acc)%D = true /\
                    (is_nan t = false -> (dmin2 acc t <=? t)%D = true) /\
                    (dmin2 acc t = acc \/ dmin2 acc t = t)).
    { unfold dmin2. destruct (t <? acc)%D eqn:Hlt.
      - pose proof (ltb_not_nan _ _ Hlt) as Ht.
        repeat split; auto using ltb_leb, leb_refl.
      - repeat split; auto using leb_refl.
        intros Ht. apply not_ltb_leb; assumption. }
    destruct Hstep as (Hn & Hle & Ht & Hsel).
    destruct (IH (dmin2 acc t) Hn) as (Hin & Hr & Hall).
    split; [|split].
    + destruct Hin as [-> | Hin]; [|auto].
      destruct Hsel as [-> | ->]; auto.
    + eapply leb_trans; eassumption.
    + intros x [<- | Hx] Nx.
      * eapply leb_trans; [exact Hr|apply Ht, Nx].
      * apply Hall; assumption.
Qed.

(** X6: [_bundle_minimum_distance] never reads a scratch cell before
    writing it: what [malloc] leaves in the two arrays has no influence on
    the result, nor on the heap after the call. *)
Theorem bundle_minimum_distance_ignores_garbage
    garbage garbage' (h : heap) stat mov static_size moving_size rows :
  _bundle_minimum_distance garbage h stat mov static_size moving_size rows =
  _bundle_minimum_distance garbage' h stat mov static_size moving_size rows.
Proof.
  unfold _bundle_minimum_distance. rewrite !bmd_init_eq. reflexivity.
Qed.

(** X7: when the scan is over, [min_j[i]] is the sentinel
    [np.finfo('f8').max] or one of the distances of static streamline [i],
    it is at most the sentinel, and it is at most every distance of
    streamline [i] that is not NaN; [min_i[j]] is the same for moving
    streamline [j]. *)
Theorem scratch_holds_minima garbage (h : heap) stat mov (S M : nat) rows :
  is_Some (h !! nd_data stat) -> is_Some (h !! nd_data mov) ->
  let st := bmd_init garbage h (Z.of_nat S) (Z.of_nat M) in
  let min_j := snd (fst st) in
  let min_i := snd st in
  let h2 := bmd_scan stat mov (Z.of_nat S) (Z.of_nat M) rows min_j min_i
                     (fst (fst st)) in
  let T := fun i j =>
    min_direct_flip_dist (row_ptr h stat (i * Z.to_nat rows))
                         (row_ptr h mov (j * Z.to_nat rows)) rows in
  (forall i, (i < S)%nat ->
     (load h2 min_j i = finfo_max \/
      exists j, (j < M)%nat /\ load h2 min_j i = T i j) /\
     (load h2 min_j i <=? finfo_max)%D = true /\
     (forall j, (j < M)%nat -> is_nan (T i j) = false ->
                (load h2 min_j i <=? T i j)%D = true)) /\
  (forall j, (j < M)%nat ->
     (load h2 min_i j = finfo_max \/
      exists i, (i < S)%nat /\ load h2 min_i j = T i j) /\
     (load h2 min_i j <=? finfo_max)%D = true /\
     (forall i, (i < S)%nat -> is_nan (T i j) = false ->
                (load h2 min_i j <=? T i j)%D = true)).
Proof.
  intros Hstat Hmov st min_j min_i h2 T.
  subst h2 min_j min_i st. rewrite bmd_init_eq. cbn [fst snd].
  assert (Nsj : nd_data stat <> scratch_j h)
    by (apply (is_Some_not_fresh h); [exact Hstat|reflexivity]).
  assert (Nmj : nd_data mov <> scratch_j h)
    by (apply (is_Some_not_fresh h); [exact Hmov|reflexivity]).
  assert (Nsi : nd_data stat <> scratch_i h)
    by (apply (is_Some_not_fresh h); [exact Hstat|apply union_subseteq_r]).
  assert (Nmi : nd_data mov <> scratch_i h)
    by (apply (is_Some_not_fresh h); [exact Hmov|apply union_subseteq_r]).
  pose proof (scratch_i_j h) as Nij.
  rewrite !Nat2Z.id.
  rewrite (bmd_scan_eq h stat mov S M rows) by congruence.
  fold T.
  destruct (scan_min_spec T S M S (replicate S inf) (replicate M inf))
    as (L1 & L2 & Hrows & _ & Hcolumns);
    [apply length_replicate|apply length_replicate|lia|].
  fold (scan_min S M T (replicate S inf, replicate M inf)) in L1, L2, Hrows, Hcolumns.
  destruct (scan_min S M T (replicate S inf, replicate M inf)) as [mj mi].
  cbn [fst snd] in *.
  unfold load.
  rewrite buffer_insert_eq, buffer_insert_ne, buffer_insert_eq by congruence.
  split.
  - intros i Hi. rewrite Hrows, deref_replicate by exact Hi.
    destruct (fold_dmin2_spec (map (fun j => T i j) (seq 0 M)) inf eq_refl)
      as (Hin & Hle & Hall).
    split; [|split].
    + destruct Hin as [Hin|Hin]; [left; exact Hin|right].
      apply in_map_iff in Hin as (j & Hj & Hjs). apply in_seq in Hjs.
      exists j. split; [lia|symmetry; exact Hj].
    + exact Hle.
    + intros j Hj Nj. apply Hall; [|exact Nj].
      apply in_map_iff. exists j. split; [reflexivity|apply in_seq; lia].
  - intros j Hj. rewrite Hcolumns, deref_replicate by exact Hj.
    destruct (fold_dmin2_spec (map (fun i => T i j) (seq 0 S)) inf eq_refl)
      as (Hin & Hle & Hall).
    split; [|split].
    + destruct Hin as [Hin|Hin]; [left; exact Hin|right].
      apply in_map_iff in Hin as (i & Hi & His). apply in_seq in His.
      exists i. split; [lia|symmetry; exact Hi].
    + exact Hle.
    + intros i Hi Ni. apply Hall; [|exact Ni].
      apply in_map_iff. exists i. split; [reflexivity|apply in_seq; lia].
Qed.

Lemma scratch_holds_minima_witness :
  let st := bmd_init (fun _ => nan) sample_heap (Z.of_nat 2) (Z.of_nat 1) in
  let h2 := bmd_scan (array2 0 6 3) (array2 1 3 3) (Z.of_nat 2) (Z.of_nat 1) 3
                     (snd (fst st)) (snd st) (fst (fst st)) in
  (load h2 (snd (fst st)) 1 <=?
   min_direct_flip_dist (row_ptr sample_heap (array2 0 6 3) (1 * Z.to_nat 3))
                        (row_ptr sample_heap (array2 1 3 3) (0 * Z.to_nat 3)) 3)%D
  = true.
Proof.
  intros st h2.
  apply (proj1 (scratch_holds_minima (fun _ => nan) sample_heap
                  (array2 0 6 3) (array2 1 3 3) 2 1 3
                  (ex_intro _ _ eq_refl) (ex_intro _ _ eq_refl)) 1%nat);
    [lia|lia|reflexivity].
Defined.

(** ** A bundle against itself *)

Lemma dmin2_zero_r acc : is_pos acc = true -> dmin2 acc zero = zero.
Proof.
  destruct acc as [[]|[]| |[] m e]; intros H; try discriminate H; reflexivity.
Qed.

Lemma dmin2_zero_l t : is_pos t = true -> dmin2 zero t = zero.
Proof.
  destruct t as [[]|[]| |[] m e]; intros H; try discriminate H; reflexivity.
Qed.

Lemma dmin2_pos acc t :
  is_pos acc = true -> is_pos t = true -> is_pos (dmin2 acc t) = true.
Proof. intros Ha Ht. unfold dmin2. destruct (t <? acc)%D; assumption. Qed.

Lemma fold_dmin2_from_zero l :
  Forall (fun x => is_pos x = true) l -> fold_left dmin2 l zero = zero.
Proof.
  induction l as [|t l IH]; intros Hl; [reflexivity|].
  inversion Hl; subst. simpl. rewrite dmin2_zero_l by assumption. auto.
Qed.

(** Among values that are not negative, a zero is the minimum. *)
Lemma fold_dmin2_zero l : forall acc,
  Forall (fun x => is_pos x = true) l -> In zero l -> is_pos acc = true ->
  fold_left dmin2 l acc = zero.
Proof.
  induction l as [|t l IH]; intros acc Hl Hin Hacc; [destruct Hin|].
  inversion Hl as [|? ? Ht Hl']; subst. simpl.
  destruct Hin as [-> | Hin].
  - rewrite dmin2_zero_r by exact Hacc. apply fold_dmin2_from_zero, Hl'.
  - apply IH; auto using dmin2_pos.
Qed.

(** X8: the bundle distance of a set to itself is [+0], for a set of at
    least one streamline, each of at least one point and with finite
    coordinates: every streamline finds itself at distance zero, and no
    distance is below zero. *)
Theorem bundle_minimum_distance_self
    garbage (h : heap) stat (set : list streamline) (rows : nat) :
  holds_set h stat set rows ->
  1 <= Z.of_nat rows < 2 ^ 63 -> 1 <= Z.of_nat (length set) < 2 ^ 63 ->
  Forall (fun s => finite_streamline s = true) set ->
  snd (_bundle_minimum_distance garbage h stat stat
         (Z.of_nat (length set)) (Z.of_nat (length set)) (Z.of_nat rows)) = zero.
Proof.
  intros Hset Hrows HS Hfin.
  set (S := length set) in *.
  set (T := fun i j =>
    min_direct_flip_dist (row_ptr h stat (i * Z.to_nat (Z.of_nat rows)))
                         (row_ptr h stat (j * Z.to_nat (Z.of_nat rows)))
                         (Z.of_nat rows)).
  (* the distances: none negative, zero on the diagonal *)
  assert (HT : forall i j, (i < S)%nat -> (j < S)%nat ->
            is_pos (T i j) = true /\ (i = j -> T i j = zero)).
  { intros i j Hi Hj. unfold T. rewrite Nat2Z.id.
    destruct (lookup_lt_is_Some_2 set i Hi) as [si Hsi].
    destruct (lookup_lt_is_Some_2 set j Hj) as [sj Hsj].
    destruct (row_ptr_holds_set h stat set rows i si Hset Hsi) as [ra ->].
    destruct (row_ptr_holds_set h stat set rows j sj Hset Hsj) as [rb ->].
    destruct Hset as (_ & _ & Hall).
    pose proof (Forall_lookup_1 _ _ _ _ Hall Hsi) as Li.
    pose proof (Forall_lookup_1 _ _ _ _ Hall Hsj) as Lj.
    pose proof (Forall_lookup_1 _ _ _ _ Hfin Hsi) as Fi.
    pose proof (Forall_lookup_1 _ _ _ _ Hfin Hsj) as Fj.
    simpl in Li, Lj, Fi, Fj.
    split.
    - rewrite (min_direct_flip_dist_spec si sj ra rb) by lia.
      apply pair_distance_spec_pos; auto; lia.
    - intros ->. rewrite Hsi in Hsj. injection Hsj as <-.
      apply self_distance_zero; auto; lia. }
  assert (Hrow : forall i, (i < S)%nat ->
            fold_left dmin2 (map (fun j => T i j) (seq 0 S)) inf = zero).
  { intros i Hi. apply fold_dmin2_zero; [| |reflexivity].
    - apply List.Forall_forall. intros x Hx.
      apply in_map_iff in Hx as (j & <- & Hj). apply in_seq in Hj.
      apply HT; lia.
    - apply in_map_iff. exists i. split; [apply HT; auto|apply in_seq; lia]. }
  assert (Hcol : forall j, (j < S)%nat ->
            fold_left dmin2 (map (fun i => T i j) (seq 0 S)) inf = zero).
  { intros j Hj. apply fold_dmin2_zero; [| |reflexivity].
    - apply List.Forall_forall. intros x Hx.
      apply in_map_iff in Hx as (i & <- & Hi). apply in_seq in Hi.
      apply HT; lia.
    - apply in_map_iff. exists j. split; [apply HT; auto|apply in_seq; lia]. }
  (* the reduction *)
  assert (Hstat : is_Some (h !! nd_data stat))
    by (destruct Hset as (Hb & _); eauto).
  unfold _bundle_minimum_distance. rewrite bmd_init_eq, !Nat2Z.id.
  assert (Nsj : nd_data stat <> scratch_j h)
    by (apply (is_Some_not_fresh h); [exact Hstat|reflexivity]).
  assert (Nsi : nd_data stat <> scratch_i h)
    by (apply (is_Some_not_fresh h); [exact Hstat|apply union_subseteq_r]).
  pose proof (scratch_i_j h) as Nij.
  rewrite (bmd_scan_eq h stat stat S S (Z.of_nat rows)) by congruence.
  fold T.
  destruct (scan_min_spec T S S S (replicate S inf) (replicate S inf))
    as (L1 & L2 & Hrows' & _ & Hcolumns);
    [apply length_replicate|apply length_replicate|lia|].
  fold (scan_min S S T (replicate S inf, replicate S inf)) in L1, L2, Hrows', Hcolumns.
  destruct (scan_min S S T (replicate S inf, replicate S inf)) as [mj mi].
  cbn [fst snd] in *.
  rewrite (bmd_finish_eq _ S S _ _ mj mi);
    [|rewrite lookup_insert_ne by congruence; apply lookup_insert_eq
     |apply lookup_insert_eq].
  cbv zeta.
  assert (Zj : dsum (map (deref mj) (seq 0 S)) = zero).
  { apply fold_add_zeros, List.Forall_forall. intros x Hx.
    apply in_map_iff in Hx as (i & <- & Hi). apply in_seq in Hi.
    rewrite Hrows', deref_replicate by lia. apply Hrow. lia. }
  assert (Zi : dsum (map (deref mi) (seq 0 S)) = zero).
  { apply fold_add_zeros, List.Forall_forall. intros x Hx.
    apply in_map_iff in Hx as (j & <- & Hj). apply in_seq in Hj.
    rewrite Hcolumns, deref_replicate by lia. apply Hcol. lia. }
  rewrite Zj, Zi.
  destruct (of_int_finite _ HS) as (m & e & ->). reflexivity.
Qed.

Lemma bundle_minimum_distance_self_witness :
  snd (_bundle_minimum_distance (fun _ => nan) sample_heap
         (array2 0 6 3) (array2 0 6 3)
         (Z.of_nat (length [line3; line3_up]))
         (Z.of_nat (length [line3; line3_up])) (Z.of_nat 3)) = zero.
Proof.
  apply (bundle_minimum_distance_self (fun _ => nan) sample_heap
           (array2 0 6 3) [line3; line3_up] 3).
  - repeat split; try reflexivity. repeat constructor.
  - simpl; lia.
  - simpl; lia.
  - repeat constructor.
Defined.

(** ** Empty sets *)

Lemma for_range_id {S : Type} (n : nat) (s : S) :
  for_range n (fun _ s => s) s = s.
Proof.
  induction n as [|n IH]; [reflexivity|]. rewrite for_range_S. exact IH.
Qed.

(** X9: with an empty static set or an empty moving set (a size that is
    zero or negative) the loops of [_bundle_minimum_distance_matrix] run no
    body: the heap, and with it the matrix [D], is returned as it was. *)
Theorem matrix_loops_empty (h : heap) static moving static_size moving_size rows D :
  static_size <= 0 \/ moving_size <= 0 ->
  _bundle_minimum_distance_matrix h static moving static_size moving_size rows D = h.
Proof.
  intros [HS | HM]; unfold _bundle_minimum_distance_matrix.
  - replace (Z.to_nat static_size) with 0%nat by lia. reflexivity.
  - replace (Z.to_nat moving_size) with 0%nat by lia.
    apply (for_range_id (Z.to_nat static_size) h).
Qed.

Lemma matrix_loops_empty_witness :
  _bundle_minimum_distance_matrix sample_heap (array2 0 6 3) (array2 1 3 3)
    2 0 3 (array2 2 2 1) = sample_heap.
Proof.
  apply matrix_loops_empty. right. lia.
Defined.
(** ** Magnitude of rounded results *)










Section Magnitude.

Local Abbreviation bra := (binary_round_aux prec emax).







End Magnitude.

(** ** Magnitude of sums, products and quotients *)












(** ** Matrix and reduction agree, infinite cells included *)





(** *** Minima from the sentinel and from the first element *)






(** *** Sums, means and the final scalar *)








